(** * Tag Merge script plugin: duplicate-tag resolution engine

    A shallow embedding of the [TagMergeScriptPlugin.runPlugin] pipeline
    (loader, index builder, merge planner, merge applier) together with the
    properties the design document states about it.

    Modelling conventions.
    - A JavaScript [number] is a [jsnum]: an integer, or one of the three
      non-finite values (the host assigns integer ids; fractions are left
      out).  Tag ids that pass the loader's validity test are kept as [Z].
    - A JavaScript string is a [string] of 8-bit code units; [trim] strips
      the ASCII white space characters and [toLowerCase] folds the ASCII
      letters.
    - [Map<string, _>] and [Map<number, string>] objects that are only read
      and written by key are [gmap]s, [Set<number>] is a [gset Z].
    - [sourceToTarget] is iterated, so it is an insertion-ordered
      association list with the in-place overwrite of [Map.prototype.set].
    - The [while (true)] loop of [resolve] and the pagination loop are
      iterated with an explicit fuel, and the fuel is shown to suffice.
    - Effects (host calls, progress, log, emitted data, final result) are a
      trace of [event]s; the host is a state machine whose [tags.merge]
      is the only operation that changes its state. *)

From stdpp Require Import gmap strings list fin_maps sorting.
From Stdlib Require Import ZArith Ascii.

Local Open Scope string_scope.
Local Open Scope list_scope.
Local Open Scope Z_scope.

(** ** Numbers and strings *)

Inductive jsnum : Type :=
  | Num (z : Z)
  | NaN
  | PosInf
  | NegInf.

(** [Number.isFinite]. *)
Definition isFinite (n : jsnum) : bool :=
  match n with
  | Num _ => true
  | _ => false
  end.

(** [n <= 0] on JavaScript numbers. *)
Definition leq_zero (n : jsnum) : bool :=
  match n with
  | Num z => bool_decide (z ≤ 0)
  | NegInf => true
  | NaN | PosInf => false
  end.

(** White space removed by [String.prototype.trim] (ASCII range). *)
Definition is_ws (c : ascii) : bool :=
  let n := nat_of_ascii c in
  ((9 <=? n)%nat && (n <=? 13)%nat) || (n =? 32)%nat.

Fixpoint trim_start (s : string) : string :=
  match s with
  | String c s' => if is_ws c then trim_start s' else s
  | EmptyString => EmptyString
  end.

Definition trim (s : string) : string :=
  String.rev (trim_start (String.rev (trim_start s))).

Definition lower_char (c : ascii) : ascii :=
  let n := nat_of_ascii c in
  if ((65 <=? n)%nat && (n <=? 90)%nat)%bool then ascii_of_nat (n + 32) else c.

Fixpoint toLowerCase (s : string) : string :=
  match s with
  | String c s' => String (lower_char c) (toLowerCase s')
  | EmptyString => EmptyString
  end.

(** [String(s ?? "")]. *)
Definition str_or_empty (s : option string) : string := default "" s.

Definition norm (s : option string) : string :=
  toLowerCase (trim (str_or_empty s)).

Definition nsKey (ns value : string) : string :=
  ns +:+ String "000"%char value.

Definition isOtherLike (ns : string) : bool :=
  bool_decide (ns = "other") || bool_decide (ns = "").

(** Truthiness of a string: [if (s)]. *)
Definition nonempty (s : string) : bool :=
  match s with
  | EmptyString => false
  | _ => true
  end.

(** ** Data model *)

(** An item of a [tags.list] page, as the host sends it. *)
Record RawTag : Type := mkRaw {
  raw_id : jsnum;
  raw_namespace : option string;
  raw_name : option string;
  raw_translation_text : option string
}.

(** An entry of the [tags] array. *)
Record TagListItem : Type := mkTag {
  id : Z;
  namespace : string;
  name : string;
  translation_text : string
}.

Record TagsListResponse : Type := mkPage {
  total : Z;
  items : list RawTag
}.

(** The four structures [ingest] writes. *)
Record Catalog : Type := mkCatalog {
  tags : list TagListItem;
  translationIndex : gmap string Z;
  canonicalCandidates : gmap string (gset Z);
  idToNs : gmap Z string
}.

Definition empty_catalog : Catalog :=
  mkCatalog [] ∅ ∅ ∅.

(** ** Index builder *)

(** [let set = m.get(key); if (!set) m.set(key, (set = new Set())); set.add(id)] *)
Definition add_candidate (key : string) (i : Z)
    (m : gmap string (gset Z)) : gmap string (gset Z) :=
  <[key := {[i]} ∪ default ∅ (m !! key)]> m.

(** The translation index update of [ingest]. *)
Definition note_translation (k : string) (i : Z) (m : gmap string Z) : gmap string Z :=
  match m !! k with
  | None => <[k := i]> m
  | Some prev => if bool_decide (prev = i) then m else <[k := 0]> m
  end.

(** The id validation of [ingest]: [None] when the record is skipped. *)
Definition valid_id (n : jsnum) : option Z :=
  if negb (isFinite n) || leq_zero n then None
  else match n with
       | Num z => Some z
       | _ => None
       end.

Definition normalize (i : Z) (it : RawTag) : TagListItem :=
  mkTag i (trim (str_or_empty (raw_namespace it)))
          (trim (str_or_empty (raw_name it)))
          (trim (str_or_empty (raw_translation_text it))).

(** The part of the loop body of [ingest] that runs for a non-otherlike tag. *)
Definition index_tag (t : TagListItem) (c : Catalog) : Catalog :=
  let nameKey := norm (Some (name t)) in
  let cc1 := if nonempty nameKey
             then add_candidate nameKey (id t) (canonicalCandidates c)
             else canonicalCandidates c in
  let trKey := norm (Some (translation_text t)) in
  if nonempty trKey
  then mkCatalog (tags c)
         (note_translation (nsKey (namespace t) trKey) (id t) (translationIndex c))
         (add_candidate trKey (id t) cc1)
         (idToNs c)
  else mkCatalog (tags c) (translationIndex c) cc1 (idToNs c).

(** One iteration of the [for] loop of [ingest]. *)
Definition ingest_one (c : Catalog) (it : RawTag) : Catalog :=
  match valid_id (raw_id it) with
  | None => c
  | Some i =>
      let t := normalize i it in
      let c1 := mkCatalog (tags c ++ [t]) (translationIndex c)
                  (canonicalCandidates c) (<[i := namespace t]> (idToNs c)) in
      if isOtherLike (namespace t) then c1 else index_tag t c1
  end.

Definition ingest (c : Catalog) (its : list RawTag) : Catalog :=
  foldl ingest_one c its.

(** ** Merge planner *)

(** [sourceToTarget]: a [Map<number, number>] in insertion order. *)
Module JsMap.

Definition t : Type := list (Z * Z).

Fixpoint get (k : Z) (m : t) : option Z :=
  match m with
  | [] => None
  | (k', v) :: m' => if bool_decide (k' = k) then Some v else get k m'
  end.

(** [Map.prototype.set]: an existing key keeps its position. *)
Fixpoint set (k v : Z) (m : t) : t :=
  match m with
  | [] => [(k, v)]
  | (k', v') :: m' =>
      if bool_decide (k' = k) then (k, v) :: m' else (k', v') :: set k v m'
  end.

Definition keys (m : t) : list Z := m.*1.
Definition values (m : t) : list Z := m.*2.

End JsMap.

(** Rule (2), for a tag whose namespace is "other" or empty. *)
Definition rule2 (cc : gmap string (gset Z)) (sourceId : Z) (nameKey : string)
    : option Z :=
  match cc !! nameKey with
  | None => None
  | Some set =>
      if negb (bool_decide (size set = 1%nat)) then None
      else match elements set with
           | targetId :: _ =>
               if negb (bool_decide (targetId = 0)) && negb (bool_decide (targetId = sourceId))
               then Some targetId else None
           | [] => None
           end
  end.

(** Rule (1), for a tag with a namespace of its own. *)
Definition rule1 (tr : gmap string Z) (sourceId : Z) (ns nameKey : string)
    : option Z :=
  match tr !! nsKey ns nameKey with
  | None => None
  | Some targetId =>
      if bool_decide (targetId = 0) || bool_decide (targetId = sourceId)
      then None else Some targetId
  end.

(** The edge the first pass proposes for one tag, if any. *)
Definition propose (c : Catalog) (it : TagListItem) : option Z :=
  let sourceId := id it in
  let ns := trim (namespace it) in
  let nameKey := norm (Some (name it)) in
  if negb (nonempty nameKey) then None
  else if isOtherLike ns then rule2 (canonicalCandidates c) sourceId nameKey
  else rule1 (translationIndex c) sourceId ns nameKey.

Definition plan_one (c : Catalog) (m : JsMap.t) (it : TagListItem) : JsMap.t :=
  match propose c it with
  | Some targetId => JsMap.set (id it) targetId m
  | None => m
  end.

(** The first pass: [for (const it of tags) ...]. *)
Definition build_edges (c : Catalog) : JsMap.t :=
  foldl (plan_one c) [] (tags c).

(** What one iteration of the [while (true)] loop of [resolve] does. *)
Inductive resolve_step_result : Type :=
  | Return (r : Z)
  | Continue (cur : Z) (seen : gset Z).

Definition resolve_step (m : JsMap.t) (cur : Z) (seen : gset Z)
    : resolve_step_result :=
  match JsMap.get cur m with
  | None => Return cur
  | Some next =>
      if bool_decide (next = 0) then Return cur
      else if bool_decide (next ∈ seen) then Return cur
      else Continue next ({[next]} ∪ seen)
  end.

(** The loop, run for at most [fuel] iterations. *)
Fixpoint resolve_loop (fuel : nat) (m : JsMap.t) (cur : Z) (seen : gset Z)
    : option Z :=
  match fuel with
  | O => None
  | S fuel' =>
      match resolve_step m cur seen with
      | Return r => Some r
      | Continue cur' seen' => resolve_loop fuel' m cur' seen'
      end
  end.

(** [resolve(id)]; [resolve_loop_enough] shows the fuel is never exhausted. *)
Definition resolve (m : JsMap.t) (i : Z) : Z :=
  default i (resolve_loop (S (length m)) m i ∅).

Definition ns_of (c : Catalog) (i : Z) : string :=
  default "" (idToNs c !! i).

(** The body of the loop over [sourceToTarget.entries()]. *)
Definition resolve_entry (c : Catalog) (m : JsMap.t) (e : Z * Z) : option (Z * Z) :=
  let '(sourceId, targetId) := e in
  let finalTarget := resolve m targetId in
  if bool_decide (finalTarget = sourceId) then None
  else if isOtherLike (ns_of c sourceId) && isOtherLike (ns_of c finalTarget) then None
  else Some (sourceId, finalTarget).

Definition by_source (a b : Z * Z) : Prop := a.1 ≤ b.1.

#[global] Instance by_source_dec : RelDecision by_source.
Proof. intros a b. unfold by_source. apply _. Defined.

(** [merges.sort((a, b) => a.sourceId - b.sourceId)]. *)
Definition sort_merges (l : list (Z * Z)) : list (Z * Z) :=
  merge_sort by_source l.

Definition plan_of (c : Catalog) : list (Z * Z) :=
  let m := build_edges c in
  sort_merges (omap (resolve_entry c m) m).

(** The merge plan computed from the items of all pages. *)
Definition merge_plan (its : list RawTag) : list (Z * Z) :=
  plan_of (ingest empty_catalog its).

(** ** The run: parameters, host calls and emitted events *)

(** The values [getParams()] hands to the script; a missing field is [None]. *)
Record PluginParams : Type := mkParams {
  p_lang : option string;
  p_page_size : option Z;
  p_dry_run : option bool;
  p_delete_source : option bool;
  p_max_merges : option Z
}.

Definition lang_of (p : PluginParams) : string :=
  let s := trim (default "zh" (p_lang p)) in
  if nonempty s then s else "zh".

Definition pageSize_of (p : PluginParams) : Z :=
  Z.min 2000 (Z.max 1 (default 1000 (p_page_size p))).

Definition dryRun_of (p : PluginParams) : bool := default true (p_dry_run p).

Definition deleteSource_of (p : PluginParams) : bool :=
  default true (p_delete_source p).

Definition maxMerges_of (p : PluginParams) : Z :=
  Z.max 0 (default 0 (p_max_merges p)).

(** The phase a progress report belongs to.  The percentage is a floating
    point expression of the same quantities and is not part of the model. *)
Inductive phase : Type :=
  | Loading (offset total : Z)
  | Building (ntags : nat)
  | Merging (applied count : nat).

Inductive event : Type :=
  | LogInfo (msg : string)
  | ReportProgress (ph : phase)
  | CallTagsList (lang : string) (limit offset : Z)
  | CallTagsMerge (sourceId targetId : Z) (deleteSource : bool)
  | EmitMergePlan (merges : list (Z * Z)) (count : nat)
  | OutputResult (success dry_run : bool) (total_tags planned_merges : nat)
      (applied_merges : option nat).

Definition is_merge_call (e : event) : bool :=
  match e with
  | CallTagsMerge _ _ _ => true
  | _ => false
  end.

(** How a computation ends: with a value, with a rejected host call, or
    with the iteration budget of the model used up. *)
Inductive result (A : Type) : Type :=
  | Ok (a : A)
  | Throw
  | Fuel.
Arguments Ok {A} a.
Arguments Throw {A}.
Arguments Fuel {A}.

Section Run.

Context {Host : Type}.
(** [tags.list] reads the host state, [tags.merge] replaces it; [None] is
    a rejected call. *)
Variable tags_list : Host → string → Z → Z → option TagsListResponse.
Variable tags_merge : Host → Z → Z → bool → option Host.

(** A computation over the host state that appends to the event trace. *)
Definition M (A : Type) : Type := Host → list event * Host * result A.

Definition ret {A} (a : A) : M A := λ h, ([], h, Ok a).

Definition bind {A B} (m : M A) (f : A → M B) : M B :=
  λ h,
    match m h with
    | (tr, h1, Ok a) =>
        let '(tr2, h2, r) := f a h1 in (tr ++ tr2, h2, r)
    | (tr, h1, Throw) => (tr, h1, Throw)
    | (tr, h1, Fuel) => (tr, h1, Fuel)
    end.

Notation "'let*' x ':=' m 'in' k" := (bind m (λ x, k))
  (at level 10, x name, m at level 100, k at level 200).
Notation "m >>- k" := (bind m (λ _, k))
  (at level 90, right associativity).

Definition emit (e : event) : M unit := λ h, ([e], h, Ok tt).

Definition out_of_fuel {A} : M A := λ h, ([], h, Fuel).

Definition callTagsList (lang : string) (limit offset : Z) : M TagsListResponse :=
  λ h,
    match tags_list h lang limit offset with
    | Some page => ([CallTagsList lang limit offset], h, Ok page)
    | None => ([CallTagsList lang limit offset], h, Throw)
    end.

Definition callTagsMerge (sourceId targetId : Z) (deleteSource : bool) : M unit :=
  λ h,
    match tags_merge h sourceId targetId deleteSource with
    | Some h' => ([CallTagsMerge sourceId targetId deleteSource], h', Ok tt)
    | None => ([CallTagsMerge sourceId targetId deleteSource], h, Throw)
    end.

(** [while (offset < total) { ... offset += pageSize; }] *)
Fixpoint load_pages (fuel : nat) (lang : string) (pageSize total offset : Z)
    (c : Catalog) : M Catalog :=
  if bool_decide (offset < total) then
    match fuel with
    | O => out_of_fuel
    | S fuel' =>
        emit (ReportProgress (Loading offset total)) >>-
        let* page := callTagsList lang pageSize offset in
        load_pages fuel' lang pageSize total (offset + pageSize)
          (ingest c (items page))
    end
  else ret c.

(** The loader: first page, then the remaining ones. *)
Definition load (lang : string) (pageSize : Z) : M Catalog :=
  let* first := callTagsList lang pageSize 0 in
  let total := total first in
  load_pages (Z.to_nat total) lang pageSize total (0 + pageSize)
    (ingest empty_catalog (items first)).

(** [for (const m of toApply) { ... applied++; }] *)
Fixpoint apply_merges (deleteSource : bool) (count applied : nat)
    (toApply : list (Z * Z)) : M nat :=
  match toApply with
  | [] => ret applied
  | m :: rest =>
      (if bool_decide (applied `mod` 50 = 0)%nat
       then emit (ReportProgress (Merging applied count)) else ret tt) >>-
      callTagsMerge m.1 m.2 deleteSource >>-
      apply_merges deleteSource count (S applied) rest
  end.

Definition runPlugin (p : PluginParams) : M unit :=
  let lang := lang_of p in
  let pageSize := pageSize_of p in
  let dryRun := dryRun_of p in
  let deleteSource := deleteSource_of p in
  let maxMerges := maxMerges_of p in
  emit (LogInfo "tag_merge started") >>-
  let* c := load lang pageSize in
  emit (ReportProgress (Building (length (tags c)))) >>-
  let merges := plan_of c in
  emit (LogInfo "merge plan built") >>-
  emit (EmitMergePlan (take 200 merges) (length merges)) >>-
  if dryRun then
    emit (OutputResult true true (length (tags c)) (length merges) None)
  else
    let toApply :=
      if bool_decide (0 < maxMerges) then take (Z.to_nat maxMerges) merges
      else merges in
    let* applied := apply_merges deleteSource (length toApply) 0 toApply in
    emit (OutputResult true false (length (tags c)) (length merges) (Some applied)).

End Run.

(** ** A concrete host for the examples

    The host state is the list of merges it has been asked to perform; the
    catalog it serves is fixed and cut into pages by [drop] and [take]. *)

Definition list_host (catalog : list RawTag) :
    list (Z * Z) → string → Z → Z → option TagsListResponse :=
  λ _ _ limit offset,
    Some (mkPage (Z.of_nat (length catalog))
            (take (Z.to_nat limit) (drop (Z.to_nat offset) catalog))).

Definition merge_host : list (Z * Z) → Z → Z → bool → option (list (Z * Z)) :=
  λ h sourceId targetId _, Some (h ++ [(sourceId, targetId)]).

Definition cycle_items : list RawTag :=
  [ mkRaw (Num 1) (Some "artist") (Some "x") (Some "z");
    mkRaw (Num 2) (Some "artist") (Some "y") (Some "x");
    mkRaw (Num 3) (Some "artist") (Some "z") (Some "y") ].

(** The catalog of the second scenario, preceded by a malformed record. *)
Definition absorb_items : list RawTag :=
  [ mkRaw NaN (Some "artist") (Some "Foo") None;
    mkRaw (Num 1) (Some "other") (Some "Foo") None;
    mkRaw (Num 2) (Some "artist") (Some " foo") None ].

(** ** Vocabulary of the statements *)

(** The entry of [tags] a record gives rise to, if it is not skipped. *)
Definition retained (it : RawTag) : option TagListItem :=
  match valid_id (raw_id it) with
  | Some i => Some (normalize i it)
  | None => None
  end.

(** The key under which a retained tag enters the translation index. *)
Definition tr_key (t : TagListItem) : option string :=
  if isOtherLike (namespace t) then None
  else let trKey := norm (Some (translation_text t)) in
       if nonempty trKey then Some (nsKey (namespace t) trKey) else None.

(** The keys under which a retained tag enters the candidate index. *)
Definition cc_keys (t : TagListItem) : list string :=
  if isOtherLike (namespace t) then []
  else (let nameKey := norm (Some (name t)) in
        if nonempty nameKey then [nameKey] else [])
       ++ (let trKey := norm (Some (translation_text t)) in
           if nonempty trKey then [trKey] else []).

(** [i] is the id of a tag of the catalog whose namespace is not otherlike. *)
Definition categorized (c : Catalog) (i : Z) : Prop :=
  ∃ t, t ∈ tags c ∧ id t = i ∧ isOtherLike (namespace t) = false.

Definition strictly_before (a b : Z * Z) : Prop := a.1 < b.1.

(** One pass through the body of the loop of [resolve] that does not return. *)
Definition loop_next (m : JsMap.t) (s s' : Z * gset Z) : Prop :=
  resolve_step m s.1 s.2 = Continue s'.1 s'.2.

(** [pg] is an answer of the host to a [tags.list] call of the run. *)
Definition served {Host : Type}
    (tags_list : Host → string → Z → Z → option TagsListResponse)
    (h : Host) (lang : string) (pageSize : Z) (pg : TagsListResponse) : Prop :=
  ∃ offset, tags_list h lang pageSize offset = Some pg.

Definition no_merge_call (tr : list event) : Prop :=
  Forall (λ e, is_merge_call e = false) tr.

Definition default_params : PluginParams := mkParams None None None None None.

(** Every id stored in the two indexes is 0 or the id of a categorized tag. *)
Definition indexes_categorized (c : Catalog) : Prop :=
  (∀ k v, translationIndex c !! k = Some v → v = 0 ∨ categorized c v) ∧
  (∀ k (s : gset Z) i, canonicalCandidates c !! k = Some s → i ∈ s → categorized c i).

(** The translation index holds [i] or the ambiguity mark under [k]. *)
Definition claimed_by (c : Catalog) (k : string) (i : Z) : Prop :=
  translationIndex c !! k = Some i ∨ translationIndex c !! k = Some 0.

(** The candidate index lists [i] under [k]. *)
Definition listed_under (c : Catalog) (k : string) (i : Z) : Prop :=
  ∃ s : gset Z, canonicalCandidates c !! k = Some s ∧ i ∈ s.

(** A host catalog in which one id occurs twice. *)
Definition dup_items : list RawTag :=
  [ mkRaw (Num 7) (Some "artist") (Some "Foo") None;
    mkRaw (Num 7) (Some "artist") (Some "Foo") None ].

(** Two artists translated alike, and a third tag named like the translation. *)
Definition ambiguous_items : list RawTag :=
  [ mkRaw (Num 1) (Some "artist") (Some "Foo") (Some "Bar");
    mkRaw (Num 2) (Some "artist") (Some "Baz") (Some " bar ") ].

Definition third_item : RawTag :=
  mkRaw (Num 3) (Some "artist") (Some "BAR") None.

(** ** Vocabulary for strings *)

(** The code units of a string. *)
Definition chars (s : string) : list ascii := Strings.String.list_ascii_of_string s.

(** Leading white space removed, on code units. *)
Fixpoint drop_ws (l : list ascii) : list ascii :=
  match l with
  | c :: l' => if is_ws c then drop_ws l' else l
  | [] => []
  end.


(** No white space at either end. *)
Definition trimmed (s : string) : Prop :=
  (∀ c, head (chars s) = Some c → is_ws c = false) ∧
  (∀ c, last (chars s) = Some c → is_ws c = false).

(** The separator [nsKey] puts between namespace and value. *)
Definition NUL : ascii := "000"%char.

(** ** Vocabulary for the indexes *)

(** The id a record enters under the translation key [k], if it does. *)
Definition translator_of (k : string) (it : RawTag) : option Z :=
  match retained it with
  | Some t =>
      match tr_key t with
      | Some k' => if bool_decide (k' = k) then Some (id t) else None
      | None => None
      end
  | None => None
  end.

(** The id a record enters under the candidate key [k], if it does. *)
Definition candidate_of (k : string) (it : RawTag) : option Z :=
  match retained it with
  | Some t => if bool_decide (k ∈ cc_keys t) then Some (id t) else None
  | None => None
  end.

(** What a sequence of ids noted under one translation key leaves there. *)
Definition agreed (l : list Z) : option Z :=
  match l with
  | [] => None
  | i :: rest => if bool_decide (Forall (λ j, j = i) rest) then Some i else Some 0
  end.

(** One update of a translation index slot. *)
Definition note_slot (o : option Z) (i : Z) : option Z :=
  match o with
  | None => Some i
  | Some prev => if bool_decide (prev = i) then Some prev else Some 0
  end.

(** ** Vocabulary for the plan and the run *)

(** The catalog of the first scenario. *)
Definition match_items : list RawTag :=
  [ mkRaw (Num 1) (Some "artist") (Some "Foo") (Some "Bar");
    mkRaw (Num 2) (Some "artist") (Some "Bar") None ].

(** [a → b] is an edge of the first pass. *)
Definition edge (m : JsMap.t) (a b : Z) : Prop := JsMap.get a m = Some b.

(** The [tags.merge] calls of a trace, in order. *)
Definition merge_calls (tr : list event) : list (Z * Z * bool) :=
  omap (λ e, match e with
             | CallTagsMerge s t d => Some (s, t, d)
             | _ => None
             end) tr.

(** The [tags.list] calls of a trace, in order. *)
Definition list_calls (tr : list event) : list (string * Z * Z) :=
  omap (λ e, match e with
             | CallTagsList l limit offset => Some (l, limit, offset)
             | _ => None
             end) tr.

Definition is_result (e : event) : bool :=
  match e with
  | OutputResult _ _ _ _ _ => true
  | _ => false
  end.

(** The part of the plan a run is allowed to apply. *)
Definition capped (p : PluginParams) (merges : list (Z * Z)) : list (Z * Z) :=
  if bool_decide (0 < maxMerges_of p) then take (Z.to_nat (maxMerges_of p)) merges
  else merges.

(** The host state after it accepted every merge of a list, in order. *)
Fixpoint merges_applied {Host : Type}
    (tags_merge : Host → Z → Z → bool → option Host)
    (deleteSource : bool) (h : Host) (l : list (Z * Z)) : option Host :=
  match l with
  | [] => Some h
  | m :: rest =>
      match tags_merge h m.1 m.2 deleteSource with
      | Some h' => merges_applied tags_merge deleteSource h' rest
      | None => None
      end
  end.

(** A plan of three entries. *)
Definition three_items : list RawTag :=
  [ mkRaw (Num 1) (Some "other") (Some "a") None;
    mkRaw (Num 2) (Some "other") (Some "b") None;
    mkRaw (Num 3) (Some "") (Some "c") None;
    mkRaw (Num 4) (Some "artist") (Some "a") None;
    mkRaw (Num 5) (Some "artist") (Some "b") None;
    mkRaw (Num 6) (Some "artist") (Some "c") None ].

(** Apply for real, at most one merge. *)
Definition cap_params : PluginParams :=
  mkParams None None (Some false) None (Some 1).

(** The argument of the [k]-th [tags.list] call of a load. *)
Definition list_call (lang : string) (pageSize : Z) (k : nat) : string * Z * Z :=
  (lang, pageSize, Z.of_nat k * pageSize).

(** ** The NFO sidecar plugin: helpers on names and tag lists *)

Module Nfo.

Fixpoint lastIndexOf_go (c : ascii) (s : string) (i found : Z) : Z :=
  match s with
  | EmptyString => found
  | String x s' =>
      lastIndexOf_go c s' (i + 1) (if bool_decide (x = c) then i else found)
  end.

(** [s.lastIndexOf(c)], -1 when [c] does not occur. *)
Definition lastIndexOf (c : ascii) (s : string) : Z := lastIndexOf_go c s 0 (-1).

(** [s.slice(0, n)] for [0 ≤ n]. *)
Definition slice_to (n : Z) (s : string) : string :=
  Strings.String.substring 0 (Z.to_nat n) s.

Definition stripExtension (name : string) : string :=
  let idx := lastIndexOf "." name in
  if bool_decide (idx ≤ 0) then name else slice_to idx name.

(** The loop of [unique], with its [seen] set. *)
Fixpoint unique_go (seen : gset string) (items : list string) : list string :=
  match items with
  | [] => []
  | item :: rest =>
      let key := trim item in
      if negb (nonempty key) || bool_decide (key ∈ seen) then unique_go seen rest
      else key :: unique_go ({[key]} ∪ seen) rest
  end.

Definition unique (items : list string) : list string := unique_go ∅ items.

(** [re.test(name)] for [re = /\.(e1|e2|...)$/i]. *)
Definition ends_with (suffix s : string) : bool :=
  Strings.String.prefix (String.rev suffix) (String.rev s).

Definition has_extension (exts : list string) (name : string) : bool :=
  existsb (λ e, ends_with (String "." e) (toLowerCase name)) exts.

Definition isVideoFile (name : string) : bool :=
  has_extension ["mp4"; "mkv"; "webm"; "avi"; "mov"; "m4v"] name.

Definition isImageFile (name : string) : bool :=
  has_extension ["jpg"; "jpeg"; "png"; "webp"; "gif"; "avif"] name.


Record SourceTagCandidate : Type := mkCandidate {
  tag : string;
  score : Z
}.

Definition pickBetterSource (current candidate : option SourceTagCandidate)
    : option SourceTagCandidate :=
  match candidate with
  | None => current
  | Some cand =>
      match current with
      | None => candidate
      | Some cur => if bool_decide (score cur < score cand) then candidate else current
      end
  end.

(** [s.split(",")]. *)
Fixpoint split_comma (s : string) : list string :=
  match s with
  | EmptyString => [""]
  | String c s' =>
      if bool_decide (c = ","%char) then "" :: split_comma s'
      else match split_comma s' with
           | x :: rest => String c x :: rest
           | [] => [String c ""]
           end
  end.

(** [l.join(sep)]. *)
Fixpoint join (sep : string) (l : list string) : string :=
  match l with
  | [] => ""
  | [x] => x
  | x :: rest => x +:+ sep +:+ join sep rest
  end.

(** [s.split(",").map((x) => x.trim()).filter(Boolean)]. *)
Definition split_tags (s : string) : list string :=
  filter (λ x, nonempty x = true) (trim <$> split_comma s).

Definition mergeTags (existing additions : string) : string :=
  join ", " (unique (split_tags existing ++ split_tags additions)).

Definition mergeTagList (existing : string) (additions : list string) : string :=
  join ", "
    (unique (split_tags existing
             ++ filter (λ x, nonempty x = true) (trim <$> additions))).

Definition stripGenericNfoSourceTag (tags : string) : string :=
  join ", "
    (unique (filter (λ x, nonempty x = true ∧ toLowerCase x ≠ "source:nfo")
               (trim <$> split_comma tags))).

(** The value found under a parameter key. *)
Inductive jsvalue : Type :=
  | VUndefined
  | VNull
  | VBool (b : bool)
  | VNumber (n : jsnum)
  | VString (s : string)
  | VOther (truthy : bool).

(** [readBoolParam(params, key, defaultValue)], given [params[key]]. *)
Definition readBoolParam (value : jsvalue) (defaultValue : bool) : bool :=
  match value with
  | VUndefined | VNull => defaultValue
  | VBool b => b
  | VNumber n =>
      match n with
      | Num z => negb (bool_decide (z = 0))
      | _ => true
      end
  | VString s =>
      let normalized := toLowerCase (trim s) in
      if bool_decide (normalized = "") then defaultValue
      else if bool_decide (normalized ∈ ["0"; "false"; "no"; "n"; "off"]) then false
      else if bool_decide (normalized ∈ ["1"; "true"; "yes"; "y"; "on"]) then true
      else nonempty s
  | VOther truthy => truthy
  end.

(** No comma in a string. *)
Definition comma_free (x : string) : Prop := ","%char ∉ chars x.

End Nfo.

(** [p] lists the ids a walk of [resolve] visits after [cur], in order. *)
Fixpoint chain (m : JsMap.t) (cur : Z) (p : list Z) : Prop :=
  match p with
  | [] => True
  | x :: p' => JsMap.get cur m = Some x ∧ x ≠ 0 ∧ chain m x p'
  end.

(** Where such a walk stands. *)
Definition walk_end (cur : Z) (p : list Z) : Z := default cur (last p).

(** * Properties *)

(** ** The ordered map *)

Module JsMapFacts.
Import JsMap.

Lemma keys_set k v m :
  keys (set k v m) = if bool_decide (k ∈ keys m) then keys m else keys m ++ [k].
Proof.
  unfold keys. induction m as [|[k' v'] m IH]; [done |].
  cbn [set].
  destruct (bool_decide_reflect (k' = k)) as [->|Hk]; rewrite !fmap_cons; cbn [fst].
  - rewrite bool_decide_eq_true_2; [done | by left].
  - rewrite IH. destruct (bool_decide_reflect (k ∈ m.*1)) as [Hin|Hin].
    + rewrite bool_decide_eq_true_2; [done | by right].
    + rewrite bool_decide_eq_false_2; [done |].
      intros [->|?]%elem_of_cons; done.
Qed.

Lemma keys_set_NoDup k v m : NoDup (keys m) → NoDup (keys (set k v m)).
Proof.
  intros Hnd. rewrite keys_set. case_bool_decide as Hin; [done |].
  apply NoDup_app. split_and!; [done | | apply NoDup_singleton].
  intros x Hx ->%list_elem_of_singleton. done.
Qed.

Lemma values_set k v m x :
  x ∈ values (set k v m) → x = v ∨ x ∈ values m.
Proof.
  unfold values. induction m as [|[k' v'] m IH]; simpl.
  - intros ->%list_elem_of_singleton. by left.
  - destruct (bool_decide_reflect (k' = k)); simpl; intros [->|Hx]%elem_of_cons.
    + by left.
    + right. by right.
    + right. by left.
    + destruct (IH Hx) as [->|?]; [by left | right; by right].
Qed.

Lemma get_Some_elem k v m : get k m = Some v → (k, v) ∈ m.
Proof.
  induction m as [|[k' v'] m IH]; simpl; [done |].
  destruct (bool_decide_reflect (k' = k)) as [->|?];
    [intros [= ->]; by left | intros; right; auto].
Qed.

Lemma get_Some_values k v m : get k m = Some v → v ∈ values m.
Proof.
  intros H%get_Some_elem. unfold values.
  apply list_elem_of_fmap. by exists (k, v).
Qed.

Lemma elem_of_set k v m e : e ∈ set k v m → e = (k, v) ∨ e ∈ m.
Proof.
  induction m as [|[k' v'] m IH]; simpl.
  - intros ->%list_elem_of_singleton. by left.
  - destruct (bool_decide_reflect (k' = k)); intros [->|He]%elem_of_cons.
    + by left.
    + right. by right.
    + right. by left.
    + destruct (IH He) as [->|?]; [by left | right; by right].
Qed.

Lemma elem_get k v m : NoDup (keys m) → (k, v) ∈ m → get k m = Some v.
Proof.
  unfold keys. induction m as [|[k' v'] m IH]; [by intros _ ?%elem_of_nil |].
  rewrite fmap_cons. intros [Hnew Hnd]%NoDup_cons [[= -> ->]|Hin]%elem_of_cons; simpl.
  - by rewrite bool_decide_eq_true_2.
  - rewrite bool_decide_eq_false_2; [by apply IH |].
    intros ->. apply Hnew. apply list_elem_of_fmap. by exists (k, v).
Qed.

End JsMapFacts.

(** ** The plan: what the filters and the sort guarantee *)

#[local] Instance by_source_total : Total by_source.
Proof. intros a b. unfold by_source. lia. Qed.

#[local] Instance by_source_trans : Transitive by_source.
Proof. intros a b c. unfold by_source. lia. Qed.

Lemma resolve_entry_Some c m e e' :
  resolve_entry c m e = Some e' →
  e'.1 = e.1 ∧ e'.2 = resolve m e.2 ∧ e'.2 ≠ e'.1 ∧
  (isOtherLike (ns_of c e'.1) && isOtherLike (ns_of c e'.2)) = false.
Proof.
  destruct e as [s t]. unfold resolve_entry.
  destruct (bool_decide_reflect (resolve m t = s)) as [|Hne]; [done |].
  destruct (isOtherLike (ns_of c s) && isOtherLike (ns_of c (resolve m t))) eqn:Hns;
    [done |].
  intros [= <-]. simpl. by rewrite Hns.
Qed.

Lemma elem_of_plan c e :
  e ∈ plan_of c ↔
  ∃ e0, e0 ∈ build_edges c ∧ resolve_entry c (build_edges c) e0 = Some e.
Proof.
  unfold plan_of, sort_merges. rewrite merge_sort_Permutation.
  apply list_elem_of_omap.
Qed.

Lemma omap_sources_sublist c m (l : list (Z * Z)) :
  (omap (resolve_entry c m) l).*1 `sublist_of` l.*1.
Proof.
  induction l as [|e l IH]; csimpl; [constructor |].
  destruct (resolve_entry c m e) as [e'|] eqn:He; csimpl.
  - apply resolve_entry_Some in He as (Hs & _). rewrite Hs.
    by apply sublist_skip.
  - by apply sublist_cons.
Qed.

Lemma build_edges_NoDup c : NoDup (JsMap.keys (build_edges c)).
Proof.
  unfold build_edges.
  assert (∀ l m, NoDup (JsMap.keys m) → NoDup (JsMap.keys (foldl (plan_one c) m l)))
    as H.
  { induction l as [|it l IH]; intros m Hm; simpl; [done |].
    apply IH. unfold plan_one. destruct (propose c it); [|done].
    by apply JsMapFacts.keys_set_NoDup. }
  apply H. apply NoDup_nil_2.
Qed.

Lemma sorted_NoDup_strict (l : list (Z * Z)) :
  StronglySorted by_source l → NoDup l.*1 → StronglySorted strictly_before l.
Proof.
  induction 1 as [|a l Hl IH Ha]; intros Hnd; [constructor |].
  rewrite fmap_cons in Hnd. apply NoDup_cons in Hnd as [Hnotin Hnd].
  constructor; [by apply IH |].
  apply Forall_forall. intros b Hb.
  rewrite Forall_forall in Ha. specialize (Ha b Hb).
  unfold by_source in Ha. unfold strictly_before.
  assert (a.1 ≠ b.1); [|lia].
  intros Heq. apply Hnotin. rewrite Heq. by apply list_elem_of_fmap_2.
Qed.

(** C4: for every catalog the emitted merge plan is strictly ascending in
    [sourceId], and no source id occurs in two entries. *)
Theorem plan_strictly_ascending (c : Catalog) :
  StronglySorted strictly_before (plan_of c) ∧ NoDup (plan_of c).*1.
Proof.
  assert (NoDup (plan_of c).*1) as Hnd.
  { unfold plan_of, sort_merges. rewrite merge_sort_Permutation.
    eapply sublist_NoDup; [apply build_edges_NoDup | apply omap_sources_sublist]. }
  split; [|done].
  apply sorted_NoDup_strict; [|done].
  unfold plan_of, sort_merges. apply StronglySorted_merge_sort; apply _.
Qed.

(** C5: no entry of the final merge plan has its resolved target equal to
    its source. *)
Theorem plan_no_self_merge (c : Catalog) (sourceId targetId : Z) :
  (sourceId, targetId) ∈ plan_of c → targetId ≠ sourceId.
Proof.
  intros (e0 & _ & He)%elem_of_plan.
  by apply resolve_entry_Some in He as (_ & _ & ? & _).
Qed.

Lemma plan_entry_namespaces c s t :
  (s, t) ∈ plan_of c →
  (isOtherLike (ns_of c s) && isOtherLike (ns_of c t)) = false.
Proof.
  intros (e0 & _ & He)%elem_of_plan.
  by apply resolve_entry_Some in He as (_ & _ & _ & Hns).
Qed.

(** C6: no entry of the final merge plan has both the namespace recorded
    for its source and the namespace recorded for its resolved target
    otherlike. *)
Theorem plan_no_otherlike_pair (c : Catalog) (sourceId targetId : Z) :
  (sourceId, targetId) ∈ plan_of c →
  ¬ (isOtherLike (ns_of c sourceId) = true ∧ isOtherLike (ns_of c targetId) = true).
Proof.
  intros Hns%plan_entry_namespaces.
  intros [H1 H2]. by rewrite H1, H2 in Hns.
Qed.

(** ** Chain resolution: the loop of [resolve] stops *)

Lemma resolve_step_Return m cur seen r :
  resolve_step m cur seen = Return r → r = cur.
Proof.
  unfold resolve_step. intros H.
  destruct (JsMap.get cur m) as [next|]; [|congruence].
  destruct (bool_decide (next = 0)); [congruence |].
  destruct (bool_decide (next ∈ seen)); congruence.
Qed.

Lemma resolve_step_Continue m cur seen cur' seen' :
  resolve_step m cur seen = Continue cur' seen' →
  JsMap.get cur m = Some cur' ∧ cur' ≠ 0 ∧ (cur' ∉ seen) ∧ seen' = {[cur']} ∪ seen.
Proof.
  unfold resolve_step. intros H.
  destruct (JsMap.get cur m) as [next|]; [|congruence].
  destruct (bool_decide_reflect (next = 0)); [congruence |].
  destruct (bool_decide_reflect (next ∈ seen)); [congruence |].
  by simplify_eq.
Qed.

Lemma size_list_to_set_le (l : list Z) :
  (size (list_to_set l : gset Z) ≤ length l)%nat.
Proof.
  induction l as [|x l IH].
  - by rewrite list_to_set_nil, size_empty.
  - rewrite list_to_set_cons, size_union_alt, size_singleton. cbn [length].
    assert (list_to_set l ∖ {[x]} ⊆ (list_to_set l : gset Z)) as Hle%subseteq_size
      by set_solver.
    lia.
Qed.

(** With more fuel than there are unvisited edge targets the loop reaches a
    state in which its body returns. *)
Lemma resolve_loop_enough m fuel cur seen :
  (size (list_to_set (JsMap.values m) ∖ seen : gset Z) < fuel)%nat →
  ∃ r seen',
    rtc (loop_next m) (cur, seen) (r, seen') ∧
    resolve_step m r seen' = Return r ∧
    resolve_loop fuel m cur seen = Some r.
Proof.
  revert cur seen. induction fuel as [|fuel IH]; intros cur seen Hsz; [lia |].
  simpl. destruct (resolve_step m cur seen) as [r|cur' seen'] eqn:Hstep.
  - pose proof (resolve_step_Return _ _ _ _ Hstep) as ->.
    exists cur, seen. split_and!; [apply rtc_refl | done | done].
  - pose proof (resolve_step_Continue _ _ _ _ _ Hstep) as (Hget & _ & Hnew & ->).
    apply JsMapFacts.get_Some_values in Hget.
    destruct (IH cur' ({[cur']} ∪ seen)) as (r & seen' & Hrtc & Hret & Hloop).
    + assert (list_to_set (JsMap.values m) ∖ ({[cur']} ∪ seen)
                ⊂ (list_to_set (JsMap.values m) ∖ seen : gset Z)) as Hsub.
      { split; [set_solver |].
        intros Hsub. specialize (Hsub cur'). set_solver. }
      apply subset_size in Hsub. lia.
    + exists r, seen'. split_and!; [|done|done].
      eapply rtc_l; [|exact Hrtc]. exact Hstep.
Qed.

Lemma resolve_fuel_bound (m : JsMap.t) (fuel : nat) :
  (length m < fuel)%nat →
  (size (list_to_set (JsMap.values m) ∖ ∅ : gset Z) < fuel)%nat.
Proof.
  intros Hlt.
  pose proof (size_list_to_set_le (JsMap.values m)) as Hle.
  unfold JsMap.values in *. rewrite length_fmap in Hle.
  assert (list_to_set m.*2 ∖ ∅ ⊆ (list_to_set m.*2 : gset Z)) as Hd%subseteq_size
    by set_solver.
  lia.
Qed.

(** C7: for every edge map and every starting id the loop of [resolve]
    leaves through a [return] after finitely many iterations: the state
    [(i, ∅)] reaches a state [(r, seen)] whose iteration returns [r], because
    [r] has no outgoing edge or its edge leads to an id already in [seen].
    Any budget above the number of edges yields that [r], which is the value
    of [resolve]. *)
Theorem resolve_terminates (m : JsMap.t) (i : Z) :
  ∃ r seen,
    rtc (loop_next m) (i, ∅) (r, seen) ∧
    resolve_step m r seen = Return r ∧
    (JsMap.get r m = None ∨ JsMap.get r m = Some 0 ∨
     ∃ next, JsMap.get r m = Some next ∧ next ∈ seen) ∧
    (∀ fuel, (length m < fuel)%nat → resolve_loop fuel m i ∅ = Some r) ∧
    resolve m i = r.
Proof.
  destruct (resolve_loop_enough m (S (length m)) i ∅) as (r & seen & Hrtc & Hret & Hloop).
  { apply resolve_fuel_bound. lia. }
  exists r, seen. split_and!; [done | done | | |].
  - unfold resolve_step in Hret.
    destruct (JsMap.get r m) as [next|]; [|by left].
    right. destruct (bool_decide_reflect (next = 0)) as [Hz|]; [left; by f_equal |].
    right. destruct (bool_decide_reflect (next ∈ seen)); [|congruence].
    by exists next.
  - intros fuel Hfuel.
    destruct (resolve_loop_enough m fuel i ∅) as (r' & seen'' & _ & _ & Hloop').
    { by apply resolve_fuel_bound. }
    rewrite Hloop'. f_equal.
    (* both budgets suffice, so they agree *)
    clear -Hloop Hloop'. revert Hloop Hloop'.
    generalize (S (length m)) as f1. generalize (∅ : gset Z) as sn. revert i fuel.
    intros i fuel. revert i. induction fuel as [|fuel IH]; intros i sn f1; [done |].
    destruct f1 as [|f1]; [done |]. simpl.
    destruct (resolve_step m i sn); [congruence |]. apply IH.
  - unfold resolve. by rewrite Hloop.
Qed.

(** ** The index builder, one structure at a time *)

Lemma valid_id_pos n i : valid_id n = Some i → 0 < i ∧ n = Num i.
Proof.
  destruct n as [z| | |]; unfold valid_id; simpl; try done.
  destruct (bool_decide_reflect (z ≤ 0)); [done |].
  intros [= ->]. split; [lia | done].
Qed.

Lemma retained_id it t : retained it = Some t → 0 < id t.
Proof.
  unfold retained. destruct (valid_id (raw_id it)) as [i|] eqn:Hv; [|done].
  intros [= <-]. simpl. by apply valid_id_pos in Hv as [? _].
Qed.

Lemma tags_ingest_one c it :
  tags (ingest_one c it) = tags c ++ option_list (retained it).
Proof.
  unfold ingest_one, retained, index_tag.
  destruct (valid_id (raw_id it)) as [i|]; simpl; [|by rewrite app_nil_r].
  destruct (isOtherLike _); [done |].
  by destruct (nonempty (norm (Some (trim (str_or_empty (raw_translation_text it)))))).
Qed.

Lemma idToNs_ingest_one c it :
  idToNs (ingest_one c it) =
  match retained it with
  | Some t => <[id t := namespace t]> (idToNs c)
  | None => idToNs c
  end.
Proof.
  unfold ingest_one, retained, index_tag.
  destruct (valid_id (raw_id it)) as [i|]; simpl; [|done].
  destruct (isOtherLike _); [done |].
  by destruct (nonempty (norm (Some (trim (str_or_empty (raw_translation_text it)))))).
Qed.

Lemma translationIndex_ingest_one c it :
  translationIndex (ingest_one c it) =
  match retained it with
  | Some t =>
      match tr_key t with
      | Some k => note_translation k (id t) (translationIndex c)
      | None => translationIndex c
      end
  | None => translationIndex c
  end.
Proof.
  unfold ingest_one, retained, index_tag, tr_key.
  destruct (valid_id (raw_id it)) as [i|]; simpl; [|done].
  destruct (isOtherLike _); [done |].
  by destruct (nonempty (norm (Some (trim (str_or_empty (raw_translation_text it)))))).
Qed.

Lemma canonicalCandidates_ingest_one c it :
  canonicalCandidates (ingest_one c it) =
  match retained it with
  | Some t => foldl (λ m k, add_candidate k (id t) m) (canonicalCandidates c) (cc_keys t)
  | None => canonicalCandidates c
  end.
Proof.
  unfold ingest_one, retained, index_tag, cc_keys.
  destruct (valid_id (raw_id it)) as [i|]; simpl; [|done].
  destruct (isOtherLike _); [done |].
  destruct (nonempty (norm (Some (trim (str_or_empty (raw_name it))))));
    by destruct (nonempty (norm (Some (trim (str_or_empty (raw_translation_text it)))))).
Qed.

Lemma ingest_app c l1 l2 : ingest c (l1 ++ l2) = ingest (ingest c l1) l2.
Proof. apply foldl_app. Qed.

Lemma ingest_cons c it l : ingest c (it :: l) = ingest (ingest_one c it) l.
Proof. done. Qed.

Lemma ingest_snoc c l it : ingest c (l ++ [it]) = ingest_one (ingest c l) it.
Proof. by rewrite ingest_app. Qed.

Lemma tags_ingest c its : tags (ingest c its) = tags c ++ omap retained its.
Proof.
  revert c. induction its as [|it its IH]; intros c; csimpl.
  - by rewrite app_nil_r.
  - unfold ingest in *. simpl. rewrite IH, tags_ingest_one.
    rewrite <- app_assoc. f_equal. by destruct (retained it).
Qed.

(** ** The loader *)

Section LoaderFacts.

Context {Host : Type}.
Variable tags_list : Host → string → Z → Z → option TagsListResponse.

(** The pagination loop leaves the host state alone, issues no merge,
    stays within its budget, and its catalog is [ingest] run over the
    pages it fetched, in order. *)
Lemma load_pages_spec fuel lang pageSize total offset c h :
  1 ≤ pageSize →
  total - offset ≤ Z.of_nat fuel →
  ∃ tr r,
    load_pages tags_list fuel lang pageSize total offset c h = (tr, h, r) ∧
    no_merge_call tr ∧
    r ≠ Fuel ∧
    ∀ c', r = Ok c' →
      ∃ pages, c' = ingest c (concat (items <$> pages)) ∧
               Forall (served tags_list h lang pageSize) pages.
Proof.
  intros Hps. revert offset c.
  induction fuel as [|fuel IH]; intros offset c Hfuel; cbn [load_pages];
    destruct (bool_decide_reflect (offset < total)) as [Hlt|Hge].
  - lia.
  - exists [], (Ok c). split_and!; [done | constructor | done |].
    intros c' [= <-]. by exists [].
  - unfold bind, emit, callTagsList.
    destruct (tags_list h lang pageSize offset) as [page|] eqn:Hpage.
    + destruct (IH (offset + pageSize) (ingest c (items page)))
        as (tr & r & Heq & Htr & Hr & Hok); [lia |].
      rewrite Heq. eexists _, r. split_and!; [reflexivity | | done |].
      * repeat constructor. exact Htr.
      * intros c' Hc'. destruct (Hok c' Hc') as (pages & -> & Hpages).
        exists (page :: pages). split.
        -- csimpl. by rewrite ingest_app.
        -- constructor; [by exists offset | done].
    + eexists _, Throw. split_and!; [reflexivity | | done | done].
      by repeat constructor.
  - exists [], (Ok c). split_and!; [done | constructor | done |].
    intros c' [= <-]. by exists [].
Qed.

Lemma load_spec lang pageSize h :
  1 ≤ pageSize →
  ∃ tr r,
    load tags_list lang pageSize h = (tr, h, r) ∧
    no_merge_call tr ∧
    r ≠ Fuel ∧
    ∀ c, r = Ok c →
      ∃ pages, c = ingest empty_catalog (concat (items <$> pages)) ∧
               Forall (served tags_list h lang pageSize) pages.
Proof.
  intros Hps. unfold load, bind, callTagsList.
  destruct (tags_list h lang pageSize 0) as [first|] eqn:Hfirst.
  - destruct (load_pages_spec (Z.to_nat (total first)) lang pageSize (total first)
                (0 + pageSize) (ingest empty_catalog (items first)) h)
      as (tr & r & Heq & Htr & Hr & Hok); [done | lia |].
    rewrite Heq. eexists _, r. split_and!; [reflexivity | | done |].
    + by constructor.
    + intros c Hc. destruct (Hok c Hc) as (pages & -> & Hpages).
      exists (first :: pages). split.
      * csimpl. by rewrite ingest_app.
      * constructor; [by exists 0 | done].
  - eexists _, Throw. split_and!; [reflexivity | | done | done].
    by repeat constructor.
Qed.

End LoaderFacts.

Lemma pageSize_of_bounds p : 1 ≤ pageSize_of p ≤ 2000.
Proof. unfold pageSize_of. lia. Qed.

(** ** Dry run *)

Section RunFacts.

Context {Host : Type}.
Variable tags_list : Host → string → Z → Z → option TagsListResponse.
Variable tags_merge : Host → Z → Z → bool → option Host.

(** C2: with the dry-run flag set (it is when the parameter is absent), a
    run leaves the host state as it found it and its trace holds no call
    of [tags.merge]; when the catalog has been loaded the run ends
    normally, and the trace ends with the plan preview (first 200 entries
    and the true count) followed by the success result carrying
    [total_tags] and [planned_merges]. *)
Theorem dry_run_never_merges (p : PluginParams) (h : Host) :
  dryRun_of p = true →
  ∃ tr r,
    runPlugin tags_list tags_merge p h = (tr, h, r) ∧
    no_merge_call tr ∧
    r ≠ Fuel ∧
    ∀ tr0 c,
      load tags_list (lang_of p) (pageSize_of p) h = (tr0, h, Ok c) →
      r = Ok tt ∧
      tr = [LogInfo "tag_merge started"] ++ tr0 ++
           [ReportProgress (Building (length (tags c)));
            LogInfo "merge plan built";
            EmitMergePlan (take 200 (plan_of c)) (length (plan_of c));
            OutputResult true true (length (tags c)) (length (plan_of c)) None].
Proof.
  intros Hdry.
  destruct (load_spec tags_list (lang_of p) (pageSize_of p) h)
    as (tr0 & r0 & Hload & Htr0 & Hr0 & _); [apply pageSize_of_bounds |].
  unfold runPlugin, bind, emit. rewrite Hload, Hdry.
  destruct r0 as [c| |]; [| |done].
  - eexists _, (Ok tt). split_and!; [reflexivity | | done |].
    + unfold no_merge_call in *. constructor; [done |].
      apply Forall_app. split; [done |]. by repeat constructor.
    + intros tr1 c1 [= <- <-]. done.
  - eexists _, Throw. split_and!; [reflexivity | | done | done].
    unfold no_merge_call in *. by constructor.
Qed.

End RunFacts.

(** ** The translation index: ambiguity is permanent *)

Lemma note_translation_lookup k i (m : gmap string Z) k' :
  note_translation k i m !! k' =
  if bool_decide (k = k')
  then match m !! k with
       | None => Some i
       | Some prev => if bool_decide (prev = i) then Some prev else Some 0
       end
  else m !! k'.
Proof.
  unfold note_translation.
  destruct (bool_decide_reflect (k = k')) as [<-|Hne].
  - destruct (m !! k) as [prev|] eqn:Hk.
    + destruct (bool_decide_reflect (prev = i)); [done |]. by rewrite lookup_insert_eq.
    + by rewrite lookup_insert_eq.
  - destruct (m !! k) as [prev|].
    + destruct (bool_decide_reflect (prev = i)); [done |]. by rewrite lookup_insert_ne.
    + by rewrite lookup_insert_ne.
Qed.

Lemma translationIndex_lookup_ingest_one c it k' :
  translationIndex (ingest_one c it) !! k' = translationIndex c !! k' ∨
  ∃ t, retained it = Some t ∧ tr_key t = Some k' ∧
       translationIndex (ingest_one c it) !! k' =
       match translationIndex c !! k' with
       | None => Some (id t)
       | Some prev => if bool_decide (prev = id t) then Some prev else Some 0
       end.
Proof.
  rewrite translationIndex_ingest_one.
  destruct (retained it) as [t|]; [|by left].
  destruct (tr_key t) as [k|] eqn:Hk; [|by left].
  rewrite note_translation_lookup.
  destruct (bool_decide_reflect (k = k')) as [<-|]; [|by left].
  right. by exists t.
Qed.

Lemma poisoned_ingest_one c it k :
  translationIndex c !! k = Some 0 → translationIndex (ingest_one c it) !! k = Some 0.
Proof.
  intros H0.
  destruct (translationIndex_lookup_ingest_one c it k) as [->|(t & _ & _ & ->)];
    [done |].
  rewrite H0. by destruct (bool_decide (0 = id t)).
Qed.

Lemma poisoned_ingest c its k :
  translationIndex c !! k = Some 0 → translationIndex (ingest c its) !! k = Some 0.
Proof.
  revert c. induction its as [|it its IH]; intros c H0; [done |].
  apply IH. by apply poisoned_ingest_one.
Qed.

Lemma claimed_by_ingest_one c it k i :
  claimed_by c k i → claimed_by (ingest_one c it) k i.
Proof.
  unfold claimed_by. intros Hc.
  destruct (translationIndex_lookup_ingest_one c it k) as [->|(t & _ & _ & ->)];
    [done |].
  destruct Hc as [-> | ->].
  - destruct (bool_decide (i = id t)); [by left | by right].
  - right. by destruct (bool_decide (0 = id t)).
Qed.

Lemma claimed_by_ingest c its k i :
  claimed_by c k i → claimed_by (ingest c its) k i.
Proof.
  revert c. induction its as [|it its IH]; intros c Hc; [done |].
  apply IH. by apply claimed_by_ingest_one.
Qed.

Lemma claimed_by_own c it t k :
  retained it = Some t → tr_key t = Some k → claimed_by (ingest_one c it) k (id t).
Proof.
  intros Ht Hk. unfold claimed_by.
  rewrite translationIndex_ingest_one, Ht, Hk, note_translation_lookup.
  rewrite bool_decide_eq_true_2 by done.
  destruct (translationIndex c !! k) as [prev|]; [|by left].
  destruct (bool_decide_reflect (prev = id t)) as [->|]; [by left | by right].
Qed.

Lemma claimed_by_other c it t k i :
  retained it = Some t → tr_key t = Some k → id t ≠ i →
  claimed_by c k i → translationIndex (ingest_one c it) !! k = Some 0.
Proof.
  intros Ht Hk Hne Hc.
  rewrite translationIndex_ingest_one, Ht, Hk, note_translation_lookup.
  rewrite bool_decide_eq_true_2 by done.
  destruct Hc as [-> | ->].
  - by rewrite bool_decide_eq_false_2.
  - by destruct (bool_decide (0 = id t)).
Qed.

(** Once [k] is claimed for [i], a later record with another id poisons it. *)
Lemma claimed_then_other c its it t k i :
  it ∈ its → retained it = Some t → tr_key t = Some k → id t ≠ i →
  claimed_by c k i → translationIndex (ingest c its) !! k = Some 0.
Proof.
  intros Hin Ht Hk Hne. revert c.
  induction its as [|x its IH]; intros c Hc; [by apply elem_of_nil in Hin |].
  rewrite ingest_cons. apply elem_of_cons in Hin as [<-|Hin].
  - apply poisoned_ingest. by eapply claimed_by_other.
  - apply IH; [done |]. by apply claimed_by_ingest_one.
Qed.

(** Two records with different ids and the same key poison it, in any order. *)
Lemma two_claims_poison c its a b ta tb k :
  a ∈ its → b ∈ its →
  retained a = Some ta → retained b = Some tb →
  tr_key ta = Some k → tr_key tb = Some k → id ta ≠ id tb →
  translationIndex (ingest c its) !! k = Some 0.
Proof.
  intros Ha Hb Hta Htb Hka Hkb Hne. revert c.
  induction its as [|x its IH]; intros c; [by apply elem_of_nil in Ha |].
  rewrite ingest_cons.
  apply elem_of_cons in Ha as [<-|Ha]; apply elem_of_cons in Hb as [<-|Hb].
  - congruence.
  - apply (claimed_then_other _ _ b tb k (id ta)); [done.. | congruence |].
    by apply claimed_by_own.
  - apply (claimed_then_other _ _ a ta k (id tb)); [done.. |].
    by apply claimed_by_own.
  - by apply IH.
Qed.

(** C3: however the records are ordered, once two retained tags with
    different ids, the same non-otherlike namespace and the same non-empty
    normalized translation text have been ingested, the translation index
    holds the ambiguity mark 0 under that (namespace, text) key; it still
    does after any further records, and so at the end of loading no tag
    whose namespace and normalized name form that key gets an edge from
    rule (1). *)
Theorem ambiguity_is_permanent (l1 l2 : list RawTag) (a b : RawTag)
    (ta tb : TagListItem) (ns key : string) :
  a ∈ l1 → b ∈ l1 →
  retained a = Some ta → retained b = Some tb →
  id ta ≠ id tb →
  namespace ta = ns → namespace tb = ns → isOtherLike ns = false →
  norm (Some (translation_text ta)) = key →
  norm (Some (translation_text tb)) = key →
  nonempty key = true →
  translationIndex (ingest empty_catalog l1) !! nsKey ns key = Some 0 ∧
  translationIndex (ingest empty_catalog (l1 ++ l2)) !! nsKey ns key = Some 0 ∧
  ∀ T : TagListItem,
    trim (namespace T) = ns → norm (Some (name T)) = key →
    rule1 (translationIndex (ingest empty_catalog (l1 ++ l2))) (id T) ns key = None ∧
    propose (ingest empty_catalog (l1 ++ l2)) T = None.
Proof.
  intros Ha Hb Hta Htb Hne Hnsa Hnsb Hns Hka Hkb Hkey.
  assert (tr_key ta = Some (nsKey ns key)) as Hta_key.
  { unfold tr_key. by rewrite Hnsa, Hns, Hka, Hkey. }
  assert (tr_key tb = Some (nsKey ns key)) as Htb_key.
  { unfold tr_key. by rewrite Hnsb, Hns, Hkb, Hkey. }
  assert (translationIndex (ingest empty_catalog l1) !! nsKey ns key = Some 0) as H1.
  { by eapply (two_claims_poison _ _ a b). }
  assert (translationIndex (ingest empty_catalog (l1 ++ l2)) !! nsKey ns key = Some 0)
    as H2.
  { rewrite ingest_app. by apply poisoned_ingest. }
  split_and!; [done | done |].
  intros T HT Hname.
  assert (rule1 (translationIndex (ingest empty_catalog (l1 ++ l2))) (id T) ns key = None)
    as Hr.
  { unfold rule1. by rewrite H2. }
  split; [done |].
  unfold propose. by rewrite Hname, Hkey, HT, Hns.
Qed.

(** ** Indexing the same list again *)

Lemma note_translation_settled k i (m : gmap string Z) :
  m !! k = Some i ∨ m !! k = Some 0 → note_translation k i m = m.
Proof.
  unfold note_translation. intros [Hk|Hk]; rewrite Hk.
  - by rewrite bool_decide_eq_true_2.
  - destruct (bool_decide (0 = i)); [done |]. by apply insert_id.
Qed.

Lemma add_candidate_lookup k i (m : gmap string (gset Z)) k' :
  add_candidate k i m !! k' =
  if bool_decide (k = k') then Some ({[i]} ∪ default ∅ (m !! k)) else m !! k'.
Proof.
  unfold add_candidate.
  destruct (bool_decide_reflect (k = k')) as [<-|];
    [by rewrite lookup_insert_eq | by rewrite lookup_insert_ne].
Qed.

Lemma add_candidate_settled k i (m : gmap string (gset Z)) :
  (∃ s : gset Z, m !! k = Some s ∧ i ∈ s) → add_candidate k i m = m.
Proof.
  intros (s & Hk & Hi). unfold add_candidate. rewrite Hk. simpl.
  apply insert_id. rewrite Hk. f_equal. set_solver.
Qed.

Lemma foldl_add_candidate_lookup ks i (m : gmap string (gset Z)) k' (s : gset Z) j :
  foldl (λ m k, add_candidate k i m) m ks !! k' = Some s → j ∈ s →
  (j = i ∧ k' ∈ ks) ∨ ∃ s0 : gset Z, m !! k' = Some s0 ∧ j ∈ s0.
Proof.
  revert m s. induction ks as [|k ks IH]; intros m s Hs Hj; simpl in Hs.
  - right. by exists s.
  - destruct (IH _ _ Hs Hj) as [[-> Hin]|(s0 & Hs0 & Hj0)].
    + left. split; [done | by right].
    + rewrite add_candidate_lookup in Hs0.
      destruct (bool_decide_reflect (k = k')) as [->|]; [|right; by exists s0].
      injection Hs0 as <-. apply elem_of_union in Hj0 as [->%elem_of_singleton|Hj0].
      * left. split; [done | by left].
      * right. destruct (m !! k') as [s1|]; [by exists s1 | set_solver].
Qed.

Lemma foldl_add_candidate_keeps ks i (m : gmap string (gset Z)) k' j :
  (∃ s : gset Z, m !! k' = Some s ∧ j ∈ s) →
  ∃ s : gset Z, foldl (λ m k, add_candidate k i m) m ks !! k' = Some s ∧ j ∈ s.
Proof.
  revert m. induction ks as [|k ks IH]; intros m (s & Hs & Hj); simpl; [by exists s |].
  apply IH. rewrite add_candidate_lookup.
  destruct (bool_decide_reflect (k = k')) as [->|]; [|by exists s].
  rewrite Hs. simpl. exists ({[i]} ∪ s). split; [done | set_solver].
Qed.

Lemma foldl_add_candidate_own ks i (m : gmap string (gset Z)) k :
  k ∈ ks →
  ∃ s : gset Z, foldl (λ m k, add_candidate k i m) m ks !! k = Some s ∧ i ∈ s.
Proof.
  revert m. induction ks as [|k0 ks IH]; intros m Hin; [by apply elem_of_nil in Hin |].
  simpl. destruct (decide (k0 = k)) as [->|Hne].
  - apply foldl_add_candidate_keeps. rewrite add_candidate_lookup.
    rewrite bool_decide_eq_true_2 by done.
    eexists. split; [done | set_solver].
  - apply IH. by apply elem_of_cons in Hin as [?|?].
Qed.

Lemma foldl_add_candidate_settled ks i (m : gmap string (gset Z)) :
  (∀ k, k ∈ ks → ∃ s : gset Z, m !! k = Some s ∧ i ∈ s) →
  foldl (λ m k, add_candidate k i m) m ks = m.
Proof.
  induction ks as [|k ks IH]; intros Hall; simpl; [done |].
  rewrite add_candidate_settled by (apply Hall; by left).
  apply IH. intros k' Hk'. apply Hall. by right.
Qed.

Lemma listed_under_ingest_one c it k i :
  listed_under c k i → listed_under (ingest_one c it) k i.
Proof.
  unfold listed_under. intros H. rewrite canonicalCandidates_ingest_one.
  destruct (retained it) as [t|]; [|done].
  by apply foldl_add_candidate_keeps.
Qed.

Lemma listed_under_ingest c its k i :
  listed_under c k i → listed_under (ingest c its) k i.
Proof.
  revert c. induction its as [|it its IH]; intros c Hc; [done |].
  rewrite ingest_cons. apply IH. by apply listed_under_ingest_one.
Qed.

(** After a pass over [its], each of its records finds its entries in place. *)
Lemma ingest_claims c its it t k :
  it ∈ its → retained it = Some t → tr_key t = Some k →
  claimed_by (ingest c its) k (id t).
Proof.
  intros Hin Ht Hk. revert c.
  induction its as [|x its IH]; intros c; [by apply elem_of_nil in Hin |].
  rewrite ingest_cons. apply elem_of_cons in Hin as [<-|Hin]; [|by apply IH].
  apply claimed_by_ingest. by apply claimed_by_own.
Qed.

Lemma ingest_lists c its it t k :
  it ∈ its → retained it = Some t → k ∈ cc_keys t →
  listed_under (ingest c its) k (id t).
Proof.
  intros Hin Ht Hk. revert c.
  induction its as [|x its IH]; intros c; [by apply elem_of_nil in Hin |].
  rewrite ingest_cons. apply elem_of_cons in Hin as [<-|Hin]; [|by apply IH].
  apply listed_under_ingest. unfold listed_under.
  rewrite canonicalCandidates_ingest_one, Ht.
  by apply foldl_add_candidate_own.
Qed.

(** A pass over records whose entries are all in place changes no index. *)
Lemma ingest_settled c its :
  (∀ it t k, it ∈ its → retained it = Some t → tr_key t = Some k →
             claimed_by c k (id t)) →
  (∀ it t k, it ∈ its → retained it = Some t → k ∈ cc_keys t →
             listed_under c k (id t)) →
  translationIndex (ingest c its) = translationIndex c ∧
  canonicalCandidates (ingest c its) = canonicalCandidates c.
Proof.
  revert c. induction its as [|x its IH]; intros c Htr Hcc; [done |].
  rewrite ingest_cons.
  assert (translationIndex (ingest_one c x) = translationIndex c) as Htr1.
  { rewrite translationIndex_ingest_one.
    destruct (retained x) as [t|] eqn:Ht; [|done].
    destruct (tr_key t) as [k|] eqn:Hk; [|done].
    apply note_translation_settled. apply (Htr x t k); [by left | done | done]. }
  assert (canonicalCandidates (ingest_one c x) = canonicalCandidates c) as Hcc1.
  { rewrite canonicalCandidates_ingest_one.
    destruct (retained x) as [t|] eqn:Ht; [|done].
    apply foldl_add_candidate_settled. intros k Hk.
    apply (Hcc x t k); [by left | done | done]. }
  destruct (IH (ingest_one c x)) as [-> ->]; [| |done].
  - intros it t k Hin Ht Hk. unfold claimed_by. rewrite Htr1.
    apply (Htr it t k); [by right | done | done].
  - intros it t k Hin Ht Hk. unfold listed_under. rewrite Hcc1.
    apply (Hcc it t k); [by right | done | done].
Qed.

(** C9: running [ingest] a second time over the same list, on top of the
    state the first run left, changes neither the translation index nor the
    canonical candidate index; this holds from the empty indexes of a run
    and from any other starting state. *)
Theorem ingest_twice_same_indexes (c0 : Catalog) (its : list RawTag) :
  translationIndex (ingest (ingest c0 its) its) = translationIndex (ingest c0 its) ∧
  canonicalCandidates (ingest (ingest c0 its) its) = canonicalCandidates (ingest c0 its).
Proof.
  apply ingest_settled.
  - intros it t k Hin Ht Hk. by apply (ingest_claims _ _ it).
  - intros it t k Hin Ht Hk. by apply (ingest_lists _ _ it).
Qed.

(** ** Merge targets are categorized tags *)

Lemma categorized_mono c c' i :
  tags c ⊆ tags c' → categorized c i → categorized c' i.
Proof. intros Hsub (t & Hin & Hid & Hns). exists t. split_and!; [by apply Hsub | done..]. Qed.

Lemma tags_ingest_one_subseteq c it : tags c ⊆ tags (ingest_one c it).
Proof. rewrite tags_ingest_one. intros t Ht. apply elem_of_app. by left. Qed.

Lemma retained_in_tags c it t : retained it = Some t → t ∈ tags (ingest_one c it).
Proof.
  intros Ht. rewrite tags_ingest_one, Ht. apply elem_of_app. right.
  simpl. by left.
Qed.

Lemma tr_key_categorized t k : tr_key t = Some k → isOtherLike (namespace t) = false.
Proof. unfold tr_key. by destruct (isOtherLike (namespace t)). Qed.

Lemma cc_keys_categorized t k : k ∈ cc_keys t → isOtherLike (namespace t) = false.
Proof.
  unfold cc_keys. destruct (isOtherLike (namespace t)); [|done].
  by intros ?%elem_of_nil.
Qed.

Lemma indexes_categorized_empty : indexes_categorized empty_catalog.
Proof. split; simpl; intros *; by rewrite lookup_empty. Qed.

Lemma indexes_categorized_ingest_one c it :
  indexes_categorized c → indexes_categorized (ingest_one c it).
Proof.
  intros [Htr Hcc].
  split.
  - intros k v Hv.
    destruct (translationIndex_lookup_ingest_one c it k) as [Heq|(t & Ht & Hk & Heq)];
      rewrite Heq in Hv.
    + destruct (Htr k v Hv) as [?|Hcat]; [by left | right].
      eapply categorized_mono; [apply tags_ingest_one_subseteq | done].
    + destruct (translationIndex c !! k) as [prev|] eqn:Hprev.
      * destruct (bool_decide (prev = id t)); [|left; congruence].
        injection Hv as <-. destruct (Htr k prev Hprev) as [?|Hcat]; [by left | right].
        eapply categorized_mono; [apply tags_ingest_one_subseteq | done].
      * injection Hv as <-. right. exists t.
        split_and!; [by apply retained_in_tags | done | by eapply tr_key_categorized].
  - intros k s i Hs Hi. rewrite canonicalCandidates_ingest_one in Hs.
    destruct (retained it) as [t|] eqn:Ht.
    + destruct (foldl_add_candidate_lookup _ _ _ _ _ _ Hs Hi)
        as [[-> Hin]|(s0 & Hs0 & Hj)].
      * exists t.
        split_and!; [by apply retained_in_tags | done | by eapply cc_keys_categorized].
      * eapply categorized_mono; [apply tags_ingest_one_subseteq | by eapply Hcc].
    + eapply categorized_mono; [apply tags_ingest_one_subseteq | by eapply Hcc].
Qed.

Lemma indexes_categorized_ingest c its :
  indexes_categorized c → indexes_categorized (ingest c its).
Proof.
  revert c. induction its as [|it its IH]; intros c Hc; [done |].
  rewrite ingest_cons. apply IH. by apply indexes_categorized_ingest_one.
Qed.

Lemma propose_categorized c it v :
  indexes_categorized c → propose c it = Some v → categorized c v ∧ v ≠ id it.
Proof.
  intros [Htr Hcc]. unfold propose.
  destruct (negb (nonempty (norm (Some (name it))))); [done |].
  destruct (isOtherLike (trim (namespace it))).
  - unfold rule2.
    destruct (canonicalCandidates c !! norm (Some (name it))) as [s|] eqn:Hs; [|done].
    destruct (negb (bool_decide (size s = 1%nat))); [done |].
    destruct (elements s) as [|targetId rest] eqn:Hel; [done |].
    destruct (bool_decide_reflect (targetId = 0)); [done |].
    destruct (bool_decide_reflect (targetId = id it)); [done |].
    simpl. intros [= <-]. split; [|done].
    apply (Hcc (norm (Some (name it))) s); [done |]. apply elem_of_elements. rewrite Hel. by left.
  - unfold rule1.
    destruct (translationIndex c !! nsKey (trim (namespace it)) (norm (Some (name it))))
      as [targetId|] eqn:Hk; [|done].
    destruct (bool_decide_reflect (targetId = 0)); [done |].
    destruct (bool_decide_reflect (targetId = id it)); [done |].
    simpl. intros [= <-]. split; [|done].
    by destruct (Htr _ _ Hk).
Qed.

Lemma build_edges_values c v :
  indexes_categorized c → v ∈ JsMap.values (build_edges c) → categorized c v.
Proof.
  intros Hc. unfold build_edges.
  assert (∀ l m, (∀ x, x ∈ JsMap.values m → categorized c x) →
                 ∀ x, x ∈ JsMap.values (foldl (plan_one c) m l) → categorized c x) as H.
  { induction l as [|it l IH]; intros m Hm; simpl; [done |].
    apply IH. unfold plan_one.
    destruct (propose c it) as [targetId|] eqn:Hp; [|done].
    intros x [->|Hx]%JsMapFacts.values_set; [|by apply Hm].
    by apply (propose_categorized c it). }
  apply H. intros x Hx. by apply elem_of_nil in Hx.
Qed.

Lemma resolve_loop_in fuel m cur seen r :
  resolve_loop fuel m cur seen = Some r → r = cur ∨ r ∈ JsMap.values m.
Proof.
  revert cur seen. induction fuel as [|fuel IH]; intros cur seen; simpl; [done |].
  destruct (resolve_step m cur seen) as [r'|cur' seen'] eqn:Hstep.
  - intros [= <-]. left. by eapply resolve_step_Return.
  - intros Hr. right. apply resolve_step_Continue in Hstep as (Hget & _).
    destruct (IH _ _ Hr) as [->|?]; [|done].
    by eapply JsMapFacts.get_Some_values.
Qed.

Lemma resolve_in m i : resolve m i = i ∨ resolve m i ∈ JsMap.values m.
Proof.
  unfold resolve.
  destruct (resolve_loop (S (length m)) m i ∅) as [r|] eqn:Hr; [|by left].
  by apply resolve_loop_in in Hr.
Qed.

Lemma plan_target_categorized c s t :
  indexes_categorized c → (s, t) ∈ plan_of c → categorized c t.
Proof.
  intros Hc ([s0 t0] & Hin & He)%elem_of_plan.
  apply resolve_entry_Some in He as (_ & Ht & _). simpl in Ht. subst t.
  assert (t0 ∈ JsMap.values (build_edges c)) as Ht0.
  { unfold JsMap.values. apply list_elem_of_fmap. by exists (s0, t0). }
  destruct (resolve_in (build_edges c) t0) as [->|Hv]; by apply build_edges_values.
Qed.

Lemma unique_id_same_tag (l : list TagListItem) t t' :
  NoDup (id <$> l) → t ∈ l → t' ∈ l → id t = id t' → t = t'.
Proof.
  induction l as [|x l IH]; [by intros _ ?%elem_of_nil |].
  rewrite fmap_cons. intros [Hnew Hnd]%NoDup_cons.
  intros [->|Ht]%elem_of_cons [->|Ht']%elem_of_cons Hid.
  - done.
  - exfalso. apply Hnew. rewrite Hid. by apply list_elem_of_fmap_2.
  - exfalso. apply Hnew. rewrite <- Hid. by apply list_elem_of_fmap_2.
  - by apply IH.
Qed.

(** With unique ids, the namespace recorded for an id is that of its tag. *)
Lemma idToNs_loaded its t :
  NoDup (id <$> tags (ingest empty_catalog its)) →
  t ∈ tags (ingest empty_catalog its) →
  idToNs (ingest empty_catalog its) !! id t = Some (namespace t).
Proof.
  induction its as [|x its IH] using rev_ind; [by intros _ ?%elem_of_nil |].
  rewrite ingest_snoc, tags_ingest_one, idToNs_ingest_one.
  destruct (retained x) as [t'|]; simpl.
  - rewrite fmap_app. intros (Hnd & Hnew & _)%NoDup_app [Hin|Hin]%elem_of_app.
    + rewrite lookup_insert_ne; [by apply IH |].
      intros Heq. apply (Hnew (id t)); [by apply list_elem_of_fmap_2 |].
      rewrite <- Heq. simpl. by left.
    + apply list_elem_of_singleton in Hin as ->. by rewrite lookup_insert_eq.
  - rewrite app_nil_r. apply IH.
Qed.

(** C10: when the ids of the loaded catalog are unique, every [targetId] of
    the final merge plan is the id of exactly one tag of the catalog, the
    namespace of that tag is neither "other" nor empty, and it is the
    namespace the run has on record for that id. *)
Theorem plan_targets_categorized (its : list RawTag) (sourceId targetId : Z) :
  NoDup (id <$> tags (ingest empty_catalog its)) →
  (sourceId, targetId) ∈ merge_plan its →
  ∃ t, t ∈ tags (ingest empty_catalog its) ∧
       id t = targetId ∧
       isOtherLike (namespace t) = false ∧
       (∀ t', t' ∈ tags (ingest empty_catalog its) → id t' = targetId → t' = t) ∧
       ns_of (ingest empty_catalog its) targetId = namespace t.
Proof.
  intros Hnd Hin.
  destruct (plan_target_categorized (ingest empty_catalog its) sourceId targetId)
    as (t & Ht & Hid & Hns); [| done |].
  { apply indexes_categorized_ingest, indexes_categorized_empty. }
  exists t. split_and!; [done.. | |].
  - intros t' Ht' Hid'.
    apply (unique_id_same_tag (tags (ingest empty_catalog its))); [done.. |].
    congruence.
  - unfold ns_of. rewrite <- Hid, idToNs_loaded by done. done.
Qed.

(** With unique ids the filter of C6 speaks about the tags themselves: no
    plan entry joins two tags of the catalog that are both otherlike. *)
Lemma plan_no_otherlike_tags (its : list RawTag) (sourceId targetId : Z) ts tt :
  NoDup (id <$> tags (ingest empty_catalog its)) →
  (sourceId, targetId) ∈ merge_plan its →
  ts ∈ tags (ingest empty_catalog its) → id ts = sourceId →
  tt ∈ tags (ingest empty_catalog its) → id tt = targetId →
  ¬ (isOtherLike (namespace ts) = true ∧ isOtherLike (namespace tt) = true).
Proof.
  intros Hnd Hin Hts <- Htt <-.
  pose proof (plan_entry_namespaces _ _ _ Hin) as Hpair.
  unfold ns_of in Hpair. rewrite !idToNs_loaded in Hpair by done.
  simpl in Hpair. intros [H1 H2]. by rewrite H1, H2 in Hpair.
Qed.

(** ** The loaded catalog *)

Lemma invalid_record_skipped c it :
  isFinite (raw_id it) = false ∨ leq_zero (raw_id it) = true →
  retained it = None ∧ ingest_one c it = c.
Proof.
  intros Hbad.
  assert (valid_id (raw_id it) = None) as Hv.
  { unfold valid_id. destruct Hbad as [->| ->]; [done |].
    by rewrite orb_true_r. }
  unfold retained, ingest_one. by rewrite Hv.
Qed.

Lemma ids_of_retained (its : list RawTag) :
  id <$> omap retained its = omap (λ it, valid_id (raw_id it)) its.
Proof.
  induction its as [|it its IH]; [done |]. csimpl. unfold retained at 1.
  destruct (valid_id (raw_id it)); csimpl; by rewrite IH.
Qed.

Lemma retained_positive (its : list RawTag) :
  Forall (λ t, 0 < id t) (omap retained its).
Proof.
  apply Forall_forall. intros t (it & _ & Ht)%list_elem_of_omap.
  by eapply retained_id.
Qed.

Section CatalogFacts.

Context {Host : Type}.
Variable tags_list : Host → string → Z → Z → option TagsListResponse.

(** C8, as the loader has it: the catalog of a completed load holds, in
    the order received, exactly the records of the fetched pages whose id
    is finite and positive.  A record with a non-finite or non-positive id
    is skipped and changes nothing; every retained id is positive.  The
    loader removes no duplicate, so the ids of the catalog are the valid
    ids of the pages with their repetitions, unique exactly when those
    are. *)
Theorem loaded_catalog_ids (p : PluginParams) (h h' : Host)
    (tr : list event) (c : Catalog) :
  load tags_list (lang_of p) (pageSize_of p) h = (tr, h', Ok c) →
  ∃ pages,
    Forall (served tags_list h (lang_of p) (pageSize_of p)) pages ∧
    tags c = omap retained (concat (items <$> pages)) ∧
    id <$> tags c = omap (λ it, valid_id (raw_id it)) (concat (items <$> pages)) ∧
    Forall (λ t, 0 < id t) (tags c) ∧
    (∀ c0 it, isFinite (raw_id it) = false ∨ leq_zero (raw_id it) = true →
              retained it = None ∧ ingest_one c0 it = c0) ∧
    (NoDup (id <$> tags c) ↔
     NoDup (omap (λ it, valid_id (raw_id it)) (concat (items <$> pages)))).
Proof.
  intros Hload.
  destruct (load_spec tags_list (lang_of p) (pageSize_of p) h)
    as (tr0 & r0 & Heq & _ & _ & Hok); [apply pageSize_of_bounds |].
  rewrite Hload in Heq. injection Heq as <- -> <-.
  destruct (Hok c eq_refl) as (pages & -> & Hpages).
  exists pages. rewrite tags_ingest. simpl.
  split_and!; [done | done | apply ids_of_retained | apply retained_positive | |].
  - intros c0 it. apply invalid_record_skipped.
  - by rewrite ids_of_retained.
Qed.

End CatalogFacts.

(** C8, as stated, fails: a host that lists one id twice gets both records
    into the catalog. *)
Lemma loader_keeps_duplicate_ids :
  ∃ tr c,
    load (list_host dup_items) (lang_of default_params) (pageSize_of default_params) []
      = (tr, [], Ok c) ∧
    ¬ NoDup (id <$> tags c).
Proof.
  eexists _, _. split; [vm_compute; reflexivity |].
  vm_compute. intros [Hnew _]%NoDup_cons. apply Hnew. by left.
Qed.

(** ** A cycle of merge edges *)

Lemma propose_target c it v : propose c it = Some v → v ≠ 0 ∧ v ≠ id it.
Proof.
  unfold propose.
  destruct (negb (nonempty (norm (Some (name it))))); [done |].
  destruct (isOtherLike (trim (namespace it))).
  - unfold rule2.
    destruct (canonicalCandidates c !! norm (Some (name it))) as [s|]; [|done].
    destruct (negb (bool_decide (size s = 1%nat))); [done |].
    destruct (elements s) as [|targetId rest]; [done |].
    destruct (bool_decide_reflect (targetId = 0)); [done |].
    destruct (bool_decide_reflect (targetId = id it)); [done |].
    simpl. by intros [= <-].
  - unfold rule1.
    destruct (translationIndex c !! nsKey (trim (namespace it)) (norm (Some (name it))))
      as [targetId|]; [|done].
    destruct (bool_decide_reflect (targetId = 0)); [done |].
    destruct (bool_decide_reflect (targetId = id it)); [done |].
    simpl. by intros [= <-].
Qed.

Lemma build_edges_entries c s t :
  (s, t) ∈ build_edges c → t ≠ 0 ∧ t ≠ s.
Proof.
  unfold build_edges.
  assert (∀ l m, (∀ e, e ∈ m → e.2 ≠ 0 ∧ e.2 ≠ e.1) →
                 ∀ e, e ∈ foldl (plan_one c) m l → e.2 ≠ 0 ∧ e.2 ≠ e.1) as H.
  { induction l as [|it l IH]; intros m Hm; simpl; [done |].
    apply IH. unfold plan_one.
    destruct (propose c it) as [targetId|] eqn:Hp; [|done].
    intros e [->|He]%JsMapFacts.elem_of_set; [|by apply Hm].
    by apply (propose_target c it). }
  intros Hin. apply (H (tags c) [] (λ e He, False_ind _ (not_elem_of_nil e He)) (s, t) Hin).
Qed.

(** Started at the target [t] of an edge [s → t], the loop of [resolve]
    never returns [s]: before [t] can be found in [seen] the walk is back at
    [t], whose successor is already in [seen]. *)
Lemma resolve_loop_not_source m s t fuel cur seen r :
  JsMap.get s m = Some t → t ≠ 0 → t ≠ s →
  (cur = t ∧ seen = ∅) ∨
  (∃ n, JsMap.get t m = Some n ∧ n ∈ seen ∧ (t ∈ seen → cur = t)) →
  resolve_loop fuel m cur seen = Some r → r ≠ s.
Proof.
  intros Hs Ht0 Hts. revert cur seen.
  induction fuel as [|fuel IH]; intros cur seen Hinv; simpl; [done |].
  destruct (resolve_step m cur seen) as [r'|cur' seen'] eqn:Hstep.
  - intros [= <-]. pose proof (resolve_step_Return _ _ _ _ Hstep) as ->.
    intros ->. unfold resolve_step in Hstep. rewrite Hs in Hstep.
    rewrite bool_decide_eq_false_2 in Hstep by done.
    destruct (bool_decide_reflect (t ∈ seen)) as [Hseen|]; [|done].
    destruct Hinv as [[? ->]|(n & _ & _ & Hback)]; [set_solver |].
    by specialize (Hback Hseen).
  - apply resolve_step_Continue in Hstep as (Hget & Hnz & Hnew & ->).
    apply IH. right. destruct Hinv as [[-> ->]|(n & Hn & Hnseen & Hback)].
    + exists cur'. split_and!; [done | set_solver | set_solver].
    + exists n. split_and!; [done | set_solver |].
      intros [->%elem_of_singleton|Hseen]%elem_of_union; [done |].
      specialize (Hback Hseen). subst cur. congruence.
Qed.

(** The test [finalTarget === sourceId] of the plan loop is never true. *)
Lemma self_merge_filter_never_fires c s t :
  (s, t) ∈ build_edges c → resolve (build_edges c) t ≠ s.
Proof.
  intros Hin. destruct (build_edges_entries c s t Hin) as [Ht0 Hts].
  assert (JsMap.get s (build_edges c) = Some t) as Hget.
  { apply JsMapFacts.elem_get; [apply build_edges_NoDup | done]. }
  unfold resolve.
  destruct (resolve_loop (S (length (build_edges c))) (build_edges c) t ∅) as [r|] eqn:Hr;
    simpl; [|done].
  eapply resolve_loop_not_source; [exact Hget | done | done | | exact Hr].
  by left.
Qed.

(** C1, on the code: the three tags of [cycle_items] propose the edges
    1→2, 2→3, 3→1.  Resolution stops, but [resolve] starts with an empty
    [seen], walks once round the cycle back to the id it was given and
    returns it, so no entry is dropped as a self-merge and the plan merges
    each tag of the cycle into the next. *)
Theorem cycle_edges_survive :
  build_edges (ingest empty_catalog cycle_items) = [(1, 2); (2, 3); (3, 1)] ∧
  resolve [(1, 2); (2, 3); (3, 1)] 2 = 2 ∧
  resolve [(1, 2); (2, 3); (3, 1)] 3 = 3 ∧
  resolve [(1, 2); (2, 3); (3, 1)] 1 = 1 ∧
  merge_plan cycle_items = [(1, 2); (2, 3); (3, 1)].
Proof. by vm_compute. Qed.

(** ** The statements at concrete catalogs *)

Lemma dry_run_never_merges_witness :
  plan_of (ingest empty_catalog absorb_items) = [(1, 2)] ∧
  dryRun_of default_params = true ∧
  ∃ tr r,
    runPlugin (list_host absorb_items) merge_host default_params [] = (tr, [], r) ∧
    no_merge_call tr ∧
    r ≠ Fuel ∧
    ∀ tr0 c,
      load (list_host absorb_items) (lang_of default_params)
        (pageSize_of default_params) [] = (tr0, [], Ok c) →
      r = Ok tt ∧
      tr = [LogInfo "tag_merge started"] ++ tr0 ++
           [ReportProgress (Building (length (tags c)));
            LogInfo "merge plan built";
            EmitMergePlan (take 200 (plan_of c)) (length (plan_of c));
            OutputResult true true (length (tags c)) (length (plan_of c)) None].
Proof.
  split; [by vm_compute |]. split; [reflexivity |].
  apply (dry_run_never_merges (list_host absorb_items) merge_host default_params []).
  reflexivity.
Defined.

Lemma ambiguity_is_permanent_witness :
  translationIndex (ingest empty_catalog ambiguous_items) !! nsKey "artist" "bar"
    = Some 0 ∧
  translationIndex (ingest empty_catalog (ambiguous_items ++ [third_item]))
    !! nsKey "artist" "bar" = Some 0 ∧
  ∀ T : TagListItem,
    trim (namespace T) = "artist" → norm (Some (name T)) = "bar" →
    rule1 (translationIndex (ingest empty_catalog (ambiguous_items ++ [third_item])))
      (id T) "artist" "bar" = None ∧
    propose (ingest empty_catalog (ambiguous_items ++ [third_item])) T = None.
Proof.
  apply (ambiguity_is_permanent ambiguous_items [third_item]
           (mkRaw (Num 1) (Some "artist") (Some "Foo") (Some "Bar"))
           (mkRaw (Num 2) (Some "artist") (Some "Baz") (Some " bar "))
           (mkTag 1 "artist" "Foo" "Bar") (mkTag 2 "artist" "Baz" "bar")
           "artist" "bar").
  - left.
  - right. left.
  - vm_compute. reflexivity.
  - vm_compute. reflexivity.
  - simpl. lia.
  - reflexivity.
  - reflexivity.
  - vm_compute. reflexivity.
  - vm_compute. reflexivity.
  - vm_compute. reflexivity.
  - reflexivity.
Defined.

Lemma plan_no_self_merge_witness :
  (1, 2) ∈ plan_of (ingest empty_catalog absorb_items) ∧ 2 ≠ 1.
Proof.
  split; [vm_compute; left |].
  apply (plan_no_self_merge (ingest empty_catalog absorb_items) 1 2).
  vm_compute. left.
Defined.

Lemma plan_no_otherlike_pair_witness :
  (1, 2) ∈ plan_of (ingest empty_catalog absorb_items) ∧
  ¬ (isOtherLike (ns_of (ingest empty_catalog absorb_items) 1) = true ∧
     isOtherLike (ns_of (ingest empty_catalog absorb_items) 2) = true).
Proof.
  split; [vm_compute; left |].
  apply (plan_no_otherlike_pair (ingest empty_catalog absorb_items) 1 2).
  vm_compute. left.
Defined.

Lemma plan_targets_categorized_witness :
  ∃ t, t ∈ tags (ingest empty_catalog absorb_items) ∧
       id t = 2 ∧
       isOtherLike (namespace t) = false ∧
       (∀ t', t' ∈ tags (ingest empty_catalog absorb_items) → id t' = 2 → t' = t) ∧
       ns_of (ingest empty_catalog absorb_items) 2 = namespace t.
Proof.
  apply (plan_targets_categorized absorb_items 1 2).
  - vm_compute. apply NoDup_cons_2; [|apply NoDup_singleton].
    intros Hin. apply list_elem_of_singleton in Hin. discriminate Hin.
  - vm_compute. left.
Defined.

Lemma loaded_catalog_ids_witness :
  ∃ pages,
    Forall (served (list_host absorb_items) [] (lang_of default_params)
              (pageSize_of default_params)) pages ∧
    tags (ingest empty_catalog absorb_items) = omap retained (concat (items <$> pages)) ∧
    id <$> tags (ingest empty_catalog absorb_items)
      = omap (λ it, valid_id (raw_id it)) (concat (items <$> pages)) ∧
    Forall (λ t, 0 < id t) (tags (ingest empty_catalog absorb_items)) ∧
    (∀ c0 it, isFinite (raw_id it) = false ∨ leq_zero (raw_id it) = true →
              retained it = None ∧ ingest_one c0 it = c0) ∧
    (NoDup (id <$> tags (ingest empty_catalog absorb_items)) ↔
     NoDup (omap (λ it, valid_id (raw_id it)) (concat (items <$> pages)))).
Proof.
  apply (loaded_catalog_ids (list_host absorb_items) default_params [] []
           [CallTagsList "zh" 1000 0] (ingest empty_catalog absorb_items)).
  vm_compute. reflexivity.
Defined.

(** With the dry-run flag cleared the same run does call [tags.merge]. *)
Example apply_run_merges :
  runPlugin (list_host absorb_items) merge_host
    (mkParams None None (Some false) None None) []
  = ([LogInfo "tag_merge started"; CallTagsList "zh" 1000 0;
      ReportProgress (Building 2); LogInfo "merge plan built";
      EmitMergePlan [(1, 2)] 1; ReportProgress (Merging 0 1);
      CallTagsMerge 1 2 true; OutputResult true false 2 1 (Some 1%nat)],
     [(1, 2)], Ok tt).
Proof. by vm_compute. Qed.


(** Rule (1): the tag named like another tag's translation is the source. *)
Example translation_match :
  merge_plan [ mkRaw (Num 1) (Some "artist") (Some "Foo") (Some "Bar");
               mkRaw (Num 2) (Some "artist") (Some "Bar") None ] = [(2, 1)].
Proof. by vm_compute. Qed.

(** Rule (2): an otherlike tag is absorbed by the only tag of that name. *)
Example otherlike_absorbed :
  merge_plan [ mkRaw (Num 1) (Some "other") (Some "Foo") None;
               mkRaw (Num 2) (Some "artist") (Some "Foo") None ] = [(1, 2)].
Proof. by vm_compute. Qed.

(** Rule (2) proposes nothing when two categorized tags share the name. *)
Example otherlike_ambiguous :
  merge_plan [ mkRaw (Num 1) (Some "other") (Some "Foo") None;
               mkRaw (Num 2) (Some "artist") (Some "Foo") None;
               mkRaw (Num 3) (Some "character") (Some "Foo") None ] = [].
Proof. by vm_compute. Qed.

(** A chain 3 → 2 → 1 is collapsed onto its end. *)
Example chain_collapsed :
  merge_plan [ mkRaw (Num 1) (Some "artist") (Some "a") (Some "b");
               mkRaw (Num 2) (Some "artist") (Some "b") (Some "c");
               mkRaw (Num 3) (Some "artist") (Some "c") None ] = [(2, 1); (3, 1)].
Proof. by vm_compute. Qed.

(** * Further properties of the code *)

(** ** Strings: [trim], [toLowerCase], [norm] *)

Lemma chars_inj s1 s2 : chars s1 = chars s2 → s1 = s2.
Proof.
  unfold chars. intros H.
  rewrite <- (Strings.String.string_of_list_ascii_of_string s1), <- (Strings.String.string_of_list_ascii_of_string s2).
  by rewrite H.
Qed.

Lemma chars_app s1 s2 : chars (s1 +:+ s2) = chars s1 ++ chars s2.
Proof. unfold chars. induction s1 as [|c s1 IH]; simpl; [done | by rewrite IH]. Qed.

Lemma chars_rev_app s1 s2 :
  chars (String.rev_app s1 s2) = reverse (chars s1) ++ chars s2.
Proof.
  unfold chars. revert s2. induction s1 as [|c s1 IH]; intros s2; simpl; [done |].
  rewrite IH. simpl. rewrite reverse_cons, <- app_assoc. done.
Qed.

Lemma chars_rev s : chars (String.rev s) = reverse (chars s).
Proof. unfold String.rev. rewrite chars_rev_app. simpl. by rewrite app_nil_r. Qed.

Lemma chars_trim_start s : chars (trim_start s) = drop_ws (chars s).
Proof.
  unfold chars. induction s as [|c s IH]; simpl; [done |].
  by destruct (is_ws c).
Qed.

Lemma chars_trim s :
  chars (trim s) = reverse (drop_ws (reverse (drop_ws (chars s)))).
Proof. unfold trim. by rewrite chars_rev, chars_trim_start, chars_rev, chars_trim_start. Qed.


Lemma drop_ws_head l c : head (drop_ws l) = Some c → is_ws c = false.
Proof.
  induction l as [|x l IH]; simpl; [done |].
  destruct (is_ws x) eqn:Hx; [done |]. simpl. by intros [= <-].
Qed.

Lemma drop_ws_split l :
  ∃ p, l = p ++ drop_ws l ∧ Forall (λ c, is_ws c = true) p.
Proof.
  induction l as [|x l (p & Hp & Hws)]; simpl; [by exists [] |].
  destruct (is_ws x) eqn:Hx; [|by exists []].
  exists (x :: p). split; [simpl; by f_equal | by constructor].
Qed.

Lemma drop_ws_id l : (∀ c, head l = Some c → is_ws c = false) → drop_ws l = l.
Proof. destruct l as [|x l]; simpl; [done |]. intros H. by rewrite (H x). Qed.


Lemma drop_ws_last l c : last (drop_ws l) = Some c → last l = Some c.
Proof.
  destruct (drop_ws_split l) as (p & Hp & _). intros Hlast.
  rewrite Hp, last_app, Hlast. done.
Qed.

Lemma trim_trimmed s : trimmed (trim s).
Proof.
  unfold trimmed. rewrite chars_trim. split; intros c.
  - rewrite head_reverse. intros H%drop_ws_last.
    rewrite last_reverse in H. by apply drop_ws_head in H.
  - rewrite last_reverse. apply drop_ws_head.
Qed.

Lemma trimmed_trim s : trimmed s → trim s = s.
Proof.
  intros [Hhead Hlast]. apply chars_inj. rewrite chars_trim.
  rewrite (drop_ws_id (chars s)) by done.
  rewrite drop_ws_id; [apply reverse_involutive |].
  intros c. rewrite head_reverse. apply Hlast.
Qed.

Lemma trim_idemp s : trim (trim s) = trim s.
Proof. apply trimmed_trim, trim_trimmed. Qed.










(** X2: the text fields of a retained tag are stored trimmed, so the
    planner, which trims the namespace and normalizes the name again, works
    with the namespace [ingest] stored and with the keys of the raw
    record. *)
Theorem retained_fields_trimmed (it : RawTag) (t : TagListItem) :
  retained it = Some t →
  trim (namespace t) = namespace t ∧
  trim (name t) = name t ∧
  trim (translation_text t) = translation_text t ∧
  norm (Some (name t)) = norm (raw_name it) ∧
  norm (Some (translation_text t)) = norm (raw_translation_text it).
Proof.
  unfold retained. destruct (valid_id (raw_id it)) as [i|]; [|done].
  intros [= <-]. unfold norm. simpl. by rewrite !trim_idemp.
Qed.

Lemma retained_fields_trimmed_witness :
  trim "artist" = "artist" ∧ trim "foo" = "foo" ∧ trim "" = "" ∧
  norm (Some "foo") = norm (Some " foo") ∧ norm (Some "") = norm None.
Proof.
  apply (retained_fields_trimmed (mkRaw (Num 2) (Some "artist") (Some " foo") None)
           (mkTag 2 "artist" "foo" "")).
  reflexivity.
Defined.

Lemma nsKey_chars ns v : chars (nsKey ns v) = chars ns ++ NUL :: chars v.
Proof. unfold nsKey. by rewrite chars_app. Qed.

Lemma sep_app_inj (x : ascii) (l1 l2 w1 w2 : list ascii) :
  x ∉ l1 → x ∉ l2 → l1 ++ x :: w1 = l2 ++ x :: w2 → l1 = l2 ∧ w1 = w2.
Proof.
  revert l2. induction l1 as [|c l1 IH]; intros [|d l2] H1 H2 Heq; simplify_eq/=.
  - done.
  - exfalso. apply H2. by left.
  - exfalso. apply H1. by left.
  - destruct (IH l2) as [-> ->]; [| | done | done].
    + intros ?. apply H1. by right.
    + intros ?. apply H2. by right.
Qed.

(** X3: as long as namespaces contain no NUL character, two index keys are
    equal only if both the namespaces and the values are. *)
Theorem nsKey_inj (ns1 v1 ns2 v2 : string) :
  NUL ∉ chars ns1 → NUL ∉ chars ns2 →
  nsKey ns1 v1 = nsKey ns2 v2 → ns1 = ns2 ∧ v1 = v2.
Proof.
  intros H1 H2 Heq. apply (f_equal chars) in Heq. rewrite !nsKey_chars in Heq.
  destruct (sep_app_inj _ _ _ _ _ H1 H2 Heq) as [Hns Hv].
  split; by apply chars_inj.
Qed.

Lemma nsKey_inj_witness : "artist" = "artist" ∧ "bar" = "bar".
Proof.
  apply (nsKey_inj "artist" "bar" "artist" "bar").
  - vm_compute. intros H. repeat (apply elem_of_cons in H as [H|H]; [discriminate H |]).
    by apply elem_of_nil in H.
  - vm_compute. intros H. repeat (apply elem_of_cons in H as [H|H]; [discriminate H |]).
    by apply elem_of_nil in H.
  - reflexivity.
Defined.

(** Without that proviso keys can collide. *)
Example nsKey_collision :
  nsKey "a" (String NUL "b") = nsKey (String "a" (String NUL "")) "b".
Proof. reflexivity. Qed.

(** ** The indexes as functions of the records *)

Lemma translationIndex_slot_one c it k :
  translationIndex (ingest_one c it) !! k =
  match translator_of k it with
  | Some i => note_slot (translationIndex c !! k) i
  | None => translationIndex c !! k
  end.
Proof.
  rewrite translationIndex_ingest_one. unfold translator_of.
  destruct (retained it) as [t|]; [|done].
  destruct (tr_key t) as [k'|]; [|done].
  rewrite note_translation_lookup.
  by destruct (bool_decide_reflect (k' = k)) as [->|].
Qed.

Lemma translationIndex_slot c its k :
  translationIndex (ingest c its) !! k =
  foldl note_slot (translationIndex c !! k) (omap (translator_of k) its).
Proof.
  revert c. induction its as [|it its IH]; intros c; [done |].
  rewrite ingest_cons, IH, translationIndex_slot_one. csimpl.
  by destruct (translator_of k it).
Qed.

Lemma note_slot_poisoned l : foldl note_slot (Some 0) l = Some 0.
Proof.
  induction l as [|j l IH]; [done |]. simpl.
  by destruct (bool_decide (0 = j)).
Qed.

Lemma note_slot_agreed i l :
  foldl note_slot (Some i) l =
  if bool_decide (Forall (λ j, j = i) l) then Some i else Some 0.
Proof.
  induction l as [|j l IH]; simpl; [done |].
  - destruct (bool_decide_reflect (i = j)) as [<-|Hne].
    + rewrite IH.
      rewrite (bool_decide_ext (Forall (λ j, j = i) l) (Forall (λ j, j = i) (i :: l)));
        [done |].
      split; [by constructor | by intros [_ ?]%Forall_cons].
    + rewrite note_slot_poisoned, bool_decide_eq_false_2; [done |].
      intros [? _]%Forall_cons. congruence.
Qed.

Lemma translationIndex_agreed (its : list RawTag) (k : string) :
  translationIndex (ingest empty_catalog its) !! k =
  agreed (omap (translator_of k) its).
Proof.
  rewrite translationIndex_slot. simpl. rewrite lookup_empty.
  destruct (omap (translator_of k) its) as [|i rest]; [done |].
  simpl. apply note_slot_agreed.
Qed.

(** X4: after loading, the translation index holds under a key nothing when
    no retained categorized record has that (namespace, translation) key,
    the id when all the records that have it carry the same id, and the
    ambiguity mark 0 otherwise. *)
Theorem translationIndex_spec (its : list RawTag) (k : string) :
  translationIndex (ingest empty_catalog its) !! k =
  agreed (omap (translator_of k) its).
Proof. apply translationIndex_agreed. Qed.

Lemma foldl_add_candidate_slot ks i (m : gmap string (gset Z)) k :
  foldl (λ m k, add_candidate k i m) m ks !! k =
  if bool_decide (k ∈ ks) then Some ({[i]} ∪ default ∅ (m !! k)) else m !! k.
Proof.
  revert m. induction ks as [|k0 ks IH]; intros m; [done |].
  cbn [foldl].
  - rewrite IH, add_candidate_lookup.
    destruct (bool_decide_reflect (k ∈ ks)) as [Hin|Hnin].
    + rewrite (bool_decide_eq_true_2 (k ∈ k0 :: ks)) by (by apply list_elem_of_further).
      destruct (bool_decide_reflect (k0 = k)) as [->|]; [|done].
      simpl. f_equal. set_solver.
    + destruct (bool_decide_reflect (k0 = k)) as [->|Hne].
      * by rewrite (bool_decide_eq_true_2 (k ∈ k :: ks)) by (by apply list_elem_of_here).
      * rewrite (bool_decide_eq_false_2 (k ∈ k0 :: ks)); [done |].
        intros [?|?]%elem_of_cons; congruence.
Qed.

Lemma canonicalCandidates_slot_one c it k :
  canonicalCandidates (ingest_one c it) !! k =
  match candidate_of k it with
  | Some i => Some ({[i]} ∪ default ∅ (canonicalCandidates c !! k))
  | None => canonicalCandidates c !! k
  end.
Proof.
  rewrite canonicalCandidates_ingest_one. unfold candidate_of.
  destruct (retained it) as [t|]; [|done].
  rewrite foldl_add_candidate_slot.
  by destruct (bool_decide_reflect (k ∈ cc_keys t)).
Qed.

Lemma canonicalCandidates_slot c its k :
  canonicalCandidates (ingest c its) !! k =
  match omap (candidate_of k) its with
  | [] => canonicalCandidates c !! k
  | l => Some (list_to_set l ∪ default ∅ (canonicalCandidates c !! k))
  end.
Proof.
  revert c. induction its as [|it its IH]; intros c; [done |].
  rewrite ingest_cons, IH, canonicalCandidates_slot_one. csimpl.
  destruct (candidate_of k it) as [i|]; [|done].
  destruct (omap (candidate_of k) its) as [|j l]; simpl; f_equal; set_solver.
Qed.

Lemma canonicalCandidates_listed (its : list RawTag) (k : string) :
  canonicalCandidates (ingest empty_catalog its) !! k =
  match omap (candidate_of k) its with
  | [] => None
  | l => Some (list_to_set l)
  end.
Proof.
  rewrite canonicalCandidates_slot. simpl. rewrite lookup_empty. simpl.
  destruct (omap (candidate_of k) its) as [|j l]; [done |].
  f_equal. set_solver.
Qed.

(** X5: after loading, the candidate index holds under a key exactly the
    set of ids of the retained categorized records whose normalized name or
    normalized translation is that key, and has no entry when there is no
    such record. *)
Theorem canonicalCandidates_spec (its : list RawTag) (k : string) :
  canonicalCandidates (ingest empty_catalog its) !! k =
  match omap (candidate_of k) its with
  | [] => None
  | l => Some (list_to_set l)
  end.
Proof. apply canonicalCandidates_listed. Qed.

(** ** Which edge a tag gets *)

Lemma translator_of_pos k it i : translator_of k it = Some i → 0 < i.
Proof.
  unfold translator_of. destruct (retained it) as [t|] eqn:Ht; [|done].
  destruct (tr_key t); [|done]. destruct (bool_decide _); [|done].
  intros [= <-]. by eapply retained_id.
Qed.

Lemma candidate_of_pos k it i : candidate_of k it = Some i → 0 < i.
Proof.
  unfold candidate_of. destruct (retained it) as [t|] eqn:Ht; [|done].
  destruct (bool_decide _); [|done].
  intros [= <-]. by eapply retained_id.
Qed.

Lemma omap_all_pos (f : RawTag → option Z) (its : list RawTag) :
  (∀ it i, f it = Some i → 0 < i) → Forall (λ j, 0 < j) (omap f its).
Proof.
  intros Hf. apply Forall_forall. intros j (it & _ & Hj)%list_elem_of_omap.
  by eapply Hf.
Qed.

Lemma agreed_Some (l : list Z) (i : Z) :
  Forall (λ j, 0 < j) l →
  (agreed l = Some i ∧ i ≠ 0 ↔ l ≠ [] ∧ Forall (λ j, j = i) l).
Proof.
  intros Hpos. destruct l as [|j rest]; simpl; [naive_solver |].
  apply Forall_cons in Hpos as [Hj _].
  destruct (bool_decide_reflect (Forall (λ x, x = j) rest)) as [Hall|Hnall].
  - split.
    + intros [[= <-] _]. split; [done | by constructor].
    + intros [_ [-> _]%Forall_cons]. split; [done | lia].
  - split.
    + intros [[= <-] ?]. done.
    + intros [_ [-> Hrest]%Forall_cons]. done.
Qed.

(** X6: rule (1) at the end of loading.  A tag with a non-empty normalized
    name and a namespace of its own gets the edge to [i] exactly when [i]
    is not its own id and the retained records of that namespace whose
    normalized translation is the tag's normalized name exist and all carry
    the id [i]. *)
Theorem rule1_edge (its : list RawTag) (T : TagListItem) (i : Z) :
  nonempty (norm (Some (name T))) = true →
  isOtherLike (trim (namespace T)) = false →
  propose (ingest empty_catalog its) T = Some i ↔
  i ≠ id T ∧
  omap (translator_of (nsKey (trim (namespace T)) (norm (Some (name T))))) its ≠ [] ∧
  Forall (λ j, j = i)
    (omap (translator_of (nsKey (trim (namespace T)) (norm (Some (name T))))) its).
Proof.
  intros Hname Hns. unfold propose, rule1. rewrite Hname, Hns. simpl.
  rewrite translationIndex_agreed.
  pose proof (agreed_Some
    (omap (translator_of (nsKey (trim (namespace T)) (norm (Some (name T))))) its) i
    (omap_all_pos _ _ (translator_of_pos _))) as Hag.
  destruct (agreed _) as [v|] eqn:Hv.
  - destruct (bool_decide_reflect (v = 0)) as [->|Hv0]; simpl.
    + split; [done |]. intros [_ H]. apply Hag in H as [[= <-] ?]. done.
    + destruct (bool_decide_reflect (v = id T)) as [->|HvT]; simpl.
      * split; [done |]. intros [Hne H]. apply Hag in H as [[= <-] ?]. done.
      * split.
        -- intros [= <-]. split; [done |]. apply Hag. done.
        -- intros [_ H]. apply Hag in H as [[= <-] ?]. done.
  - split; [done |]. intros [_ H]. by apply Hag in H as [? _].
Qed.

Lemma size_list_to_set_one (j : Z) (l : list Z) :
  size (list_to_set (j :: l) : gset Z) = 1%nat ↔ Forall (λ x, x = j) l.
Proof.
  split.
  - intros Hsz. apply Forall_forall. intros x Hx.
    apply (size_singleton_inv (list_to_set (j :: l) : gset Z)); [done | |].
    + apply elem_of_list_to_set. by right.
    + apply elem_of_list_to_set. by left.
  - intros Hall. rewrite Forall_forall in Hall.
    assert ((list_to_set (j :: l) : gset Z) = {[j]}) as ->; [|apply size_singleton].
    apply set_eq. intros x.
    rewrite elem_of_list_to_set, elem_of_cons, elem_of_singleton. naive_solver.
Qed.

(** X7: rule (2) at the end of loading.  A tag with a non-empty normalized
    name and an otherlike namespace gets the edge to [i] exactly when [i] is
    not its own id and the retained categorized records whose normalized
    name or normalized translation is the tag's normalized name exist and
    all carry the id [i]. *)
Theorem rule2_edge (its : list RawTag) (T : TagListItem) (i : Z) :
  nonempty (norm (Some (name T))) = true →
  isOtherLike (trim (namespace T)) = true →
  propose (ingest empty_catalog its) T = Some i ↔
  i ≠ id T ∧
  omap (candidate_of (norm (Some (name T)))) its ≠ [] ∧
  Forall (λ j, j = i) (omap (candidate_of (norm (Some (name T)))) its).
Proof.
  intros Hname Hns. unfold propose, rule2. rewrite Hname, Hns. simpl.
  rewrite canonicalCandidates_listed.
  pose proof (omap_all_pos _ its (candidate_of_pos (norm (Some (name T))))) as Hpos.
  destruct (omap (candidate_of (norm (Some (name T)))) its) as [|j rest];
    [naive_solver |].
  apply Forall_cons in Hpos as [Hj _].
  destruct (bool_decide_reflect (size (list_to_set (j :: rest) : gset Z) = 1%nat))
    as [Hsz|Hsz]; cbn [negb].
  - pose proof Hsz as Hall%size_list_to_set_one.
    assert ((list_to_set (j :: rest) : gset Z) = {[j]}) as ->.
    { apply set_eq. intros x. rewrite Forall_forall in Hall.
      rewrite elem_of_list_to_set, elem_of_cons, elem_of_singleton. naive_solver. }
    rewrite elements_singleton.
    rewrite (bool_decide_eq_false_2 (j = 0)) by lia. simpl.
    destruct (bool_decide_reflect (j = id T)) as [->|HjT]; simpl.
    + split; [done |]. intros (Hne & _ & [Heq _]%Forall_cons). congruence.
    + split.
      * intros [= <-]. split_and!; [done | done | by constructor].
      * intros (_ & _ & [Heq _]%Forall_cons). congruence.
  - split; [done |]. intros (_ & _ & [Heq Hrest]%Forall_cons). subst i.
    by apply size_list_to_set_one in Hrest.
Qed.

Lemma rule1_edge_witness :
  propose (ingest empty_catalog match_items) (mkTag 2 "artist" "Bar" "") = Some 1 ↔
  1 ≠ 2 ∧
  omap (translator_of (nsKey (trim "artist") (norm (Some "Bar")))) match_items ≠ [] ∧
  Forall (λ j, j = 1)
    (omap (translator_of (nsKey (trim "artist") (norm (Some "Bar")))) match_items).
Proof.
  apply (rule1_edge match_items (mkTag 2 "artist" "Bar" "") 1); reflexivity.
Defined.

Lemma rule2_edge_witness :
  propose (ingest empty_catalog absorb_items) (mkTag 1 "other" "Foo" "") = Some 2 ↔
  2 ≠ 1 ∧
  omap (candidate_of (norm (Some "Foo"))) absorb_items ≠ [] ∧
  Forall (λ j, j = 2) (omap (candidate_of (norm (Some "Foo"))) absorb_items).
Proof.
  apply (rule2_edge absorb_items (mkTag 1 "other" "Foo" "") 2); reflexivity.
Defined.

(** ** The edge map and the plan *)

Lemma get_set_eq k v m : JsMap.get k (JsMap.set k v m) = Some v.
Proof.
  induction m as [|[k' v'] m IH]; simpl.
  - by rewrite bool_decide_eq_true_2.
  - destruct (bool_decide_reflect (k' = k)) as [->|Hne]; simpl.
    + by rewrite bool_decide_eq_true_2.
    + by rewrite bool_decide_eq_false_2.
Qed.

Lemma get_set_ne k k' v m : k ≠ k' → JsMap.get k' (JsMap.set k v m) = JsMap.get k' m.
Proof.
  intros Hne. induction m as [|[k0 v0] m IH]; simpl.
  - by rewrite bool_decide_eq_false_2.
  - destruct (bool_decide_reflect (k0 = k)) as [->|Hk0]; simpl.
    + by rewrite !bool_decide_eq_false_2.
    + by rewrite IH.
Qed.

Lemma get_foldl_other c l m i :
  (∀ x, x ∈ l → id x ≠ i) →
  JsMap.get i (foldl (plan_one c) m l) = JsMap.get i m.
Proof.
  revert m. induction l as [|x l IH]; intros m Hl; simpl; [done |].
  rewrite IH by (intros y Hy; apply Hl; by right).
  unfold plan_one. destruct (propose c x); [|done].
  apply get_set_ne. apply Hl. by left.
Qed.

Lemma get_foldl_own c l m T :
  NoDup (id <$> l) → T ∈ l → JsMap.get (id T) m = None →
  JsMap.get (id T) (foldl (plan_one c) m l) = propose c T.
Proof.
  revert m. induction l as [|x l IH]; intros m Hnd Hin Hm; [by apply elem_of_nil in Hin |].
  rewrite fmap_cons in Hnd. apply NoDup_cons in Hnd as [Hnew Hnd]. simpl.
  apply elem_of_cons in Hin as [->|Hin].
  - rewrite get_foldl_other.
    + unfold plan_one. destruct (propose c x); [apply get_set_eq | done].
    + intros y Hy Heq. apply Hnew. rewrite <- Heq. by apply list_elem_of_fmap_2.
  - apply IH; [done | done |].
    unfold plan_one. destruct (propose c x); [|done].
    rewrite get_set_ne; [done |].
    intros Heq. apply Hnew. rewrite Heq. by apply list_elem_of_fmap_2.
Qed.

(** X8: when the ids of the catalog are unique, the edge map of the first
    pass holds for every tag exactly the edge the rules propose for it, and
    nothing for an id that is not in the catalog. *)
Theorem edges_are_proposals (c : Catalog) :
  NoDup (id <$> tags c) →
  (∀ T, T ∈ tags c → JsMap.get (id T) (build_edges c) = propose c T) ∧
  (∀ i, i ∉ id <$> tags c → JsMap.get i (build_edges c) = None).
Proof.
  intros Hnd. unfold build_edges. split.
  - intros T HT. by apply get_foldl_own.
  - intros i Hi. rewrite get_foldl_other; [done |].
    intros x Hx <-. apply Hi. by apply list_elem_of_fmap_2.
Qed.

Lemma edges_are_proposals_witness :
  (∀ T, T ∈ tags (ingest empty_catalog match_items) →
        JsMap.get (id T) (build_edges (ingest empty_catalog match_items))
        = propose (ingest empty_catalog match_items) T) ∧
  (∀ i, i ∉ id <$> tags (ingest empty_catalog match_items) →
        JsMap.get i (build_edges (ingest empty_catalog match_items)) = None).
Proof.
  apply (edges_are_proposals (ingest empty_catalog match_items)).
  vm_compute. apply NoDup_cons_2; [|apply NoDup_singleton].
  intros Hin. apply list_elem_of_singleton in Hin. discriminate Hin.
Defined.

Lemma loop_next_edges m s s' :
  rtc (loop_next m) s s' → rtc (edge m) s.1 s'.1.
Proof.
  induction 1 as [|s1 s2 s3 Hstep _ IH]; [apply rtc_refl |].
  eapply rtc_l; [|exact IH].
  unfold loop_next in Hstep. by apply resolve_step_Continue in Hstep as (? & _).
Qed.

(** X9: every entry of the plan comes from an edge of the first pass with
    the same source, and its target is reached from that edge's target by
    following edges: the plan only merges along proposed edges. *)
Theorem plan_follows_edges (c : Catalog) (sourceId finalTarget : Z) :
  (sourceId, finalTarget) ∈ plan_of c →
  ∃ targetId,
    edge (build_edges c) sourceId targetId ∧
    rtc (edge (build_edges c)) targetId finalTarget.
Proof.
  intros ([s t] & Hin & He)%elem_of_plan.
  apply resolve_entry_Some in He as (Hs & Ht & _). simpl in *. subst s finalTarget.
  exists t. split.
  - apply JsMapFacts.elem_get; [apply build_edges_NoDup | done].
  - destruct (resolve_loop_enough (build_edges c) (S (length (build_edges c))) t ∅)
      as (r & seen & Hrtc & _ & Hloop).
    { apply resolve_fuel_bound. lia. }
    unfold resolve. rewrite Hloop. simpl.
    by apply loop_next_edges in Hrtc.
Qed.

Lemma plan_follows_edges_witness :
  ∃ targetId,
    edge (build_edges (ingest empty_catalog absorb_items)) 1 targetId ∧
    rtc (edge (build_edges (ingest empty_catalog absorb_items))) targetId 2.
Proof.
  apply (plan_follows_edges (ingest empty_catalog absorb_items) 1 2).
  vm_compute. left.
Defined.

Lemma length_set k v m : (length (JsMap.set k v m) ≤ S (length m))%nat.
Proof.
  induction m as [|[k' v'] m IH]; simpl; [lia |].
  destruct (bool_decide (k' = k)); simpl; lia.
Qed.

Lemma length_omap_le {A B} (f : A → option B) (l : list A) :
  (length (omap f l) ≤ length l)%nat.
Proof. induction l as [|x l IH]; csimpl; [lia |]. destruct (f x); simpl; lia. Qed.

Lemma foldl_plan_one_spec c l m :
  (length (foldl (plan_one c) m l) ≤ length m + length l)%nat ∧
  ∀ e, e ∈ foldl (plan_one c) m l → e ∈ m ∨ ∃ T, T ∈ l ∧ id T = e.1.
Proof.
  revert m. induction l as [|x l IH]; intros m; simpl; [split; [lia | by left] |].
  destruct (IH (plan_one c m x)) as [Hlen Hsrc]. split.
  - assert (length (plan_one c m x) ≤ S (length m))%nat as Hone; [|lia].
    unfold plan_one. destruct (propose c x); [apply length_set | lia].
  - intros e He. destruct (Hsrc e He) as [Hm|(T & HT & Hid)].
    + unfold plan_one in Hm. destruct (propose c x) as [v|]; [|by left].
      apply JsMapFacts.elem_of_set in Hm as [->|?]; [|by left].
      right. exists x. split; [by left | done].
    + right. exists T. split; [by right | done].
Qed.

(** X10: the counts a run reports are ordered: the plan has at most as many
    entries as the first pass has edges, and there are at most as many
    edges as tags in the catalog; every source of the plan is the id of a
    tag of the catalog. *)
Theorem plan_counts (c : Catalog) :
  (length (plan_of c) ≤ length (build_edges c) ≤ length (tags c))%nat ∧
  Forall (λ e, ∃ T, T ∈ tags c ∧ id T = e.1) (plan_of c).
Proof.
  destruct (foldl_plan_one_spec c (tags c) []) as [Hlen Hsrc]. split.
  - split; [|exact Hlen].
    unfold plan_of, sort_merges. rewrite merge_sort_Permutation.
    apply length_omap_le.
  - apply Forall_forall. intros e (e0 & Hin & He)%elem_of_plan.
    apply resolve_entry_Some in He as (-> & _).
    destruct (Hsrc e0 Hin) as [Hnil|?]; [by apply elem_of_nil in Hnil | done].
Qed.

(** X11: the namespace the run has on record for an id is the namespace of
    the last tag of the catalog with that id; an id without a tag has none,
    and is then treated as otherlike by the filter. *)
Theorem recorded_namespace (its : list RawTag) (i : Z) :
  idToNs (ingest empty_catalog its) !! i =
  namespace <$> last (filter (λ t, id t = i) (tags (ingest empty_catalog its))).
Proof.
  induction its as [|x its IH] using rev_ind; [done |].
  rewrite ingest_snoc, tags_ingest_one, idToNs_ingest_one.
  destruct (retained x) as [t|]; simpl; [|by rewrite app_nil_r].
  rewrite filter_app, filter_cons, filter_nil.
  destruct (decide (id t = i)) as [<-|Hne].
  - by rewrite last_snoc, lookup_insert_eq.
  - by rewrite app_nil_r, lookup_insert_ne.
Qed.

(** ** The merge applier *)

Section ApplierFacts.

Context {Host : Type}.
Variable tags_list : Host → string → Z → Z → option TagsListResponse.
Variable tags_merge : Host → Z → Z → bool → option Host.

Lemma merge_calls_app tr1 tr2 :
  merge_calls (tr1 ++ tr2) = merge_calls tr1 ++ merge_calls tr2.
Proof. apply omap_app. Qed.

Lemma merge_calls_none tr : no_merge_call tr → merge_calls tr = [].
Proof.
  unfold merge_calls. induction 1 as [|e tr He _ IH]; [done |]. csimpl.
  rewrite IH. by destruct e.
Qed.

(** The loop over [toApply]: the merge calls it issues are a prefix of the
    list, it completes exactly when the host accepts them all, and it
    emits neither a result nor a list call. *)
Lemma apply_merges_spec d count applied l h :
  ∃ tr h' r done,
    apply_merges tags_merge d count applied l h = (tr, h', r) ∧
    r ≠ Fuel ∧
    Forall (λ e, is_result e = false) tr ∧
    done `prefix_of` l ∧
    merge_calls tr = (λ m, (m.1, m.2, d)) <$> done ∧
    (∀ n, r = Ok n →
          done = l ∧ n = (applied + length l)%nat ∧
          merges_applied tags_merge d h l = Some h') ∧
    (r = Throw → merges_applied tags_merge d h l = None).
Proof.
  revert applied h. induction l as [|m l IH]; intros applied h.
  - exists [], h, (Ok applied), []. simpl.
    split_and!; [done | done | constructor | done | done | | done].
    intros n [= <-]. split_and!; [done | lia | done].
  - cbn [apply_merges merges_applied]. unfold bind, callTagsMerge.
    set (pre := if bool_decide (applied `mod` 50 = 0)%nat
                then emit (ReportProgress (Merging applied count)) else ret tt).
    assert (∃ tr0, pre h = (tr0, h, Ok tt) ∧ merge_calls tr0 = [] ∧
                   Forall (λ e, is_result e = false) tr0) as (tr0 & -> & Hm0 & Hr0).
    { unfold pre. destruct (bool_decide _).
      - eexists. split_and!; [reflexivity | done | by repeat constructor].
      - eexists. split_and!; [reflexivity | done | constructor]. }
    destruct (tags_merge h m.1 m.2 d) as [h1|] eqn:Hmerge.
    + destruct (IH (S applied) h1) as (tr & h' & r & done & -> & Hr & Hres & Hpre & Hcalls & Hok & Hthrow).
      exists (tr0 ++ [CallTagsMerge m.1 m.2 d] ++ tr), h', r, (m :: done).
      split_and!; [done | done | | | | |].
      * apply Forall_app. split; [done |]. by constructor.
      * by apply prefix_cons.
      * rewrite !merge_calls_app, Hm0, Hcalls. done.
      * intros n Hn. destruct (Hok n Hn) as (-> & -> & Hh).
        split_and!; [done | simpl; lia | done].
      * done.
    + exists (tr0 ++ [CallTagsMerge m.1 m.2 d]), h, Throw, [m].
      split_and!; [done | done | | | | done | done].
      * apply Forall_app. split; [done |]. by repeat constructor.
      * apply prefix_cons, prefix_nil.
      * rewrite merge_calls_app, Hm0. done.
Qed.

Lemma capped_spec p merges :
  capped p merges `prefix_of` merges ∧
  (0 < maxMerges_of p → (length (capped p merges) ≤ Z.to_nat (maxMerges_of p))%nat) ∧
  (maxMerges_of p = 0 → capped p merges = merges).
Proof.
  unfold capped. destruct (bool_decide_reflect (0 < maxMerges_of p)).
  - split_and!; [apply prefix_take | | lia].
    intros _. rewrite length_take. lia.
  - split_and!; [done | lia | done].
Qed.

(** X12: with the dry-run flag cleared and the catalog loaded, the
    [tags.merge] calls of the run are, in plan order and with the
    configured [deleteSource], a prefix of the plan cut to [max_merges]
    entries (the whole plan when the cap is 0).  The run completes exactly
    when the host accepts all of them; it then leaves the host in the state
    those merges produce and ends with one result that reports their
    number. *)
Theorem applier_follows_plan (p : PluginParams) (h : Host)
    (tr0 : list event) (c : Catalog) :
  dryRun_of p = false →
  load tags_list (lang_of p) (pageSize_of p) h = (tr0, h, Ok c) →
  ∃ tr h' r done,
    runPlugin tags_list tags_merge p h = (tr, h', r) ∧
    done `prefix_of` capped p (plan_of c) ∧
    merge_calls tr = (λ m, (m.1, m.2, deleteSource_of p)) <$> done ∧
    capped p (plan_of c) `prefix_of` plan_of c ∧
    (0 < maxMerges_of p →
     (length (capped p (plan_of c)) ≤ Z.to_nat (maxMerges_of p))%nat) ∧
    (maxMerges_of p = 0 → capped p (plan_of c) = plan_of c) ∧
    (r = Ok tt ↔
     merges_applied tags_merge (deleteSource_of p) h (capped p (plan_of c)) = Some h') ∧
    (r = Ok tt →
     done = capped p (plan_of c) ∧
     last tr = Some (OutputResult true false (length (tags c)) (length (plan_of c))
                       (Some (length (capped p (plan_of c)))))).
Proof.
  intros Hdry Hload.
  destruct (load_spec tags_list (lang_of p) (pageSize_of p) h)
    as (tr0' & r0 & Hload' & Htr0 & _ & _); [apply pageSize_of_bounds |].
  rewrite Hload in Hload'. injection Hload' as <- <-.
  destruct (capped_spec p (plan_of c)) as (Hcap1 & Hcap2 & Hcap3).
  unfold runPlugin, bind, emit. rewrite Hload, Hdry.
  fold (capped p (plan_of c)).
  destruct (apply_merges_spec (deleteSource_of p) (length (capped p (plan_of c))) 0
              (capped p (plan_of c)) h)
    as (tr & h' & r & done & -> & Hr & Hres & Hpre & Hcalls & Hok & Hthrow).
  destruct r as [n| |]; [| |done].
  - destruct (Hok n eq_refl) as (-> & -> & Hh).
    eexists _, h', (Ok tt), (capped p (plan_of c)).
    split_and!; [reflexivity | done | | done | done | done | done |].
    + rewrite !merge_calls_app, (merge_calls_none tr0 Htr0), Hcalls.
      simpl. by rewrite app_nil_r.
    + intros _. split; [done |].
      rewrite !app_assoc. by rewrite last_snoc.
  - eexists _, h', Throw, done.
    split_and!; [reflexivity | done | | done | done | done | | done].
    + rewrite !merge_calls_app, (merge_calls_none tr0 Htr0), Hcalls. done.
    + rewrite (Hthrow eq_refl). done.
Qed.

End ApplierFacts.

Lemma applier_follows_plan_witness :
  plan_of (ingest empty_catalog three_items) = [(1, 4); (2, 5); (3, 6)] ∧
  ∃ tr h' r done,
    runPlugin (list_host three_items) merge_host cap_params [] = (tr, h', r) ∧
    done `prefix_of` capped cap_params (plan_of (ingest empty_catalog three_items)) ∧
    merge_calls tr = (λ m, (m.1, m.2, deleteSource_of cap_params)) <$> done ∧
    capped cap_params (plan_of (ingest empty_catalog three_items))
      `prefix_of` plan_of (ingest empty_catalog three_items) ∧
    (0 < maxMerges_of cap_params →
     (length (capped cap_params (plan_of (ingest empty_catalog three_items)))
      ≤ Z.to_nat (maxMerges_of cap_params))%nat) ∧
    (maxMerges_of cap_params = 0 →
     capped cap_params (plan_of (ingest empty_catalog three_items))
     = plan_of (ingest empty_catalog three_items)) ∧
    (r = Ok tt ↔
     merges_applied merge_host (deleteSource_of cap_params) []
       (capped cap_params (plan_of (ingest empty_catalog three_items))) = Some h') ∧
    (r = Ok tt →
     done = capped cap_params (plan_of (ingest empty_catalog three_items)) ∧
     last tr = Some (OutputResult true false
                       (length (tags (ingest empty_catalog three_items)))
                       (length (plan_of (ingest empty_catalog three_items)))
                       (Some (length (capped cap_params
                                        (plan_of (ingest empty_catalog three_items))))))).
Proof.
  split; [by vm_compute |].
  apply (applier_follows_plan (list_host three_items) merge_host cap_params []
           [CallTagsList "zh" 1000 0] (ingest empty_catalog three_items)).
  - reflexivity.
  - vm_compute. reflexivity.
Defined.

(** The run of the fifth scenario: one call, for the lowest source id. *)
Example one_merge_applied :
  merge_calls (runPlugin (list_host three_items) merge_host cap_params []).1.1
  = [(1, 4, true)].
Proof. by vm_compute. Qed.

(** ** Pagination and the shape of a run *)

Section PaginationFacts.

Context {Host : Type}.
Variable tags_list : Host → string → Z → Z → option TagsListResponse.
Variable tags_merge : Host → Z → Z → bool → option Host.

Lemma list_calls_app tr1 tr2 :
  list_calls (tr1 ++ tr2) = list_calls tr1 ++ list_calls tr2.
Proof. apply omap_app. Qed.

Lemma offsets_shift (lang : string) (pageSize offset : Z) (n : nat) :
  (lang, pageSize, offset)
  :: ((λ j, (lang, pageSize, offset + pageSize + Z.of_nat j * pageSize)) <$> seq 0 n)
  = (λ j, (lang, pageSize, offset + Z.of_nat j * pageSize)) <$> seq 0 (S n).
Proof.
  cbn [seq fmap list_fmap]. f_equal; [f_equal; lia |].
  rewrite <- fmap_S_seq, <- list_fmap_compose.
  apply list_fmap_ext. intros _ j _. simpl. f_equal. lia.
Qed.

(** The pagination loop asks for the offsets [offset], [offset + pageSize],
    ... while they are below [total], and its catalog is built from the
    pages at those offsets. *)
Lemma load_pages_calls fuel lang pageSize total offset c h :
  1 ≤ pageSize →
  total - offset ≤ Z.of_nat fuel →
  ∃ tr r n,
    load_pages tags_list fuel lang pageSize total offset c h = (tr, h, r) ∧
    list_calls tr
      = (λ j, (lang, pageSize, offset + Z.of_nat j * pageSize)) <$> seq 0 n ∧
    Forall (λ e, is_result e = false) tr ∧
    (∀ j, (j < n)%nat → offset + Z.of_nat j * pageSize < total) ∧
    (r = Throw →
     ∃ j, n = S j ∧ tags_list h lang pageSize (offset + Z.of_nat j * pageSize) = None) ∧
    ∀ c', r = Ok c' →
      total ≤ offset + Z.of_nat n * pageSize ∧
      ∃ pages,
        length pages = n ∧
        (∀ j pg, pages !! j = Some pg →
                 tags_list h lang pageSize (offset + Z.of_nat j * pageSize) = Some pg) ∧
        c' = ingest c (concat (items <$> pages)).
Proof.
  intros Hps. revert offset c.
  induction fuel as [|fuel IH]; intros offset c Hfuel; cbn [load_pages];
    destruct (bool_decide_reflect (offset < total)) as [Hlt|Hge]; [lia | | |].
  - exists [], (Ok c), 0%nat.
    split_and!; [done | done | constructor | lia | done |].
    intros c' [= <-]. split; [lia |]. by exists [].
  - unfold bind, emit, callTagsList.
    destruct (tags_list h lang pageSize offset) as [page|] eqn:Hpage.
    + destruct (IH (offset + pageSize) (ingest c (items page)))
        as (tr & r & n & Heq & Hcalls & Hres & Hlt' & Hthrow & Hok); [lia |].
      rewrite Heq. eexists _, r, (S n).
      split_and!; [reflexivity | | | | |].
      * rewrite !list_calls_app, Hcalls. simpl. apply offsets_shift.
      * repeat constructor. exact Hres.
      * intros [|j] Hj; [lia |]. specialize (Hlt' j). lia.
      * intros Hr. destruct (Hthrow Hr) as (j & -> & Hnone).
        exists (S j). split; [done |].
        rewrite <- Hnone. f_equal. lia.
      * intros c' Hc'. destruct (Hok c' Hc') as (Htot & pages & Hlen & Hpages & ->).
        split; [lia |]. exists (page :: pages). split_and!.
        -- simpl. by rewrite Hlen.
        -- intros [|j] pg Hpg; simpl in Hpg.
           ++ injection Hpg as <-. rewrite <- Hpage. f_equal. lia.
           ++ rewrite <- (Hpages j pg Hpg). f_equal. lia.
        -- csimpl. by rewrite ingest_app.
    + eexists _, Throw, 1%nat.
      split_and!; [reflexivity | | | | | done].
      * simpl. repeat f_equal. lia.
      * by repeat constructor.
      * intros j Hj. assert (j = 0%nat) as -> by lia. lia.
      * intros _. exists 0%nat. split; [done |]. rewrite <- Hpage. f_equal. lia.
  - exists [], (Ok c), 0%nat.
    split_and!; [done | done | constructor | lia | done |].
    intros c' [= <-]. split; [lia |]. by exists [].
Qed.

Lemma lang_of_nonempty p : lang_of p ≠ "".
Proof.
  unfold lang_of. destruct (trim (default "zh" (p_lang p))) eqn:Ht; simpl; done.
Qed.

(** X13: a load asks the host for the offsets 0, [pageSize],
    2·[pageSize], ... with a non-empty language and a limit between 1 and
    2000; every offset after the first is below the total the first page
    reported.  It leaves the host state alone.  It fails exactly at a
    rejected call, which is then its last; otherwise the offsets reach the
    total and the catalog is [ingest] run over the pages at these offsets,
    in order. *)
Theorem load_pagination (p : PluginParams) (h : Host) :
  1 ≤ pageSize_of p ≤ 2000 ∧ lang_of p ≠ "" ∧
  ∃ tr r n,
    load tags_list (lang_of p) (pageSize_of p) h = (tr, h, r) ∧
    r ≠ Fuel ∧
    list_calls tr = list_call (lang_of p) (pageSize_of p) <$> seq 0 (S n) ∧
    (∀ first j, tags_list h (lang_of p) (pageSize_of p) 0 = Some first →
                (1 ≤ j ≤ n)%nat → Z.of_nat j * pageSize_of p < total first) ∧
    (r = Throw →
     tags_list h (lang_of p) (pageSize_of p) (Z.of_nat n * pageSize_of p) = None) ∧
    ∀ c, r = Ok c →
      ∃ pages first,
        pages !! 0%nat = Some first ∧
        total first ≤ Z.of_nat (S n) * pageSize_of p ∧
        length pages = S n ∧
        (∀ j pg, pages !! j = Some pg →
                 tags_list h (lang_of p) (pageSize_of p) (Z.of_nat j * pageSize_of p)
                 = Some pg) ∧
        c = ingest empty_catalog (concat (items <$> pages)).
Proof.
  split; [apply pageSize_of_bounds |]. split; [apply lang_of_nonempty |].
  pose proof (pageSize_of_bounds p) as Hps.
  generalize dependent (pageSize_of p). generalize (lang_of p). intros lang ps Hps.
  unfold load, bind, callTagsList.
  destruct (tags_list h lang ps 0) as [first|] eqn:Hfirst.
  - destruct (load_pages_calls (Z.to_nat (total first)) lang ps (total first)
                (0 + ps) (ingest empty_catalog (items first)) h)
      as (tr & r & n & Heq & Hcalls & Hres & Hlt & Hthrow & Hok); [lia | lia |].
    rewrite Heq. eexists _, r, n.
    split_and!; [reflexivity | | | | |].
    + destruct r; [done | done |].
      destruct (load_pages_spec tags_list (Z.to_nat (total first)) lang ps (total first)
                  (0 + ps) (ingest empty_catalog (items first)) h)
        as (tr' & r' & Heq' & _ & Hr' & _); [lia | lia |].
      rewrite Heq in Heq'. by injection Heq' as <- <-.
    + rewrite list_calls_app, Hcalls. cbn [list_calls omap list_omap app].
      rewrite (offsets_shift lang ps 0 n). unfold list_call.
      apply list_fmap_ext. intros _ j _. simpl. f_equal.
    + intros first' j [= <-] Hj. destruct j as [|j]; [lia |].
      specialize (Hlt j). lia.
    + intros Hr. destruct (Hthrow Hr) as (j & -> & Hnone).
      rewrite <- Hnone. f_equal. lia.
    + intros c Hc. destruct (Hok c Hc) as (Htot & pages & Hlen & Hpages & ->).
      exists (first :: pages), first. split_and!; [done | lia | simpl; lia | |].
      * intros [|j] pg Hpg; simpl in Hpg.
        -- injection Hpg as <-. rewrite <- Hfirst. f_equal.
        -- rewrite <- (Hpages j pg Hpg). f_equal. lia.
      * csimpl. by rewrite ingest_app.
  - eexists _, Throw, 0%nat.
    split_and!; [reflexivity | done | done | | | done].
    + intros first j Hf. congruence.
    + intros _. rewrite <- Hfirst. f_equal.
Qed.

End PaginationFacts.

(** Three records served two at a time. *)
Example two_pages :
  list_calls (load (list_host cycle_items) "zh" 2 []).1.1
  = [("zh", 2, 0); ("zh", 2, 2)].
Proof. by vm_compute. Qed.

Section RunShape.

Context {Host : Type}.
Variable tags_list : Host → string → Z → Z → option TagsListResponse.
Variable tags_merge : Host → Z → Z → bool → option Host.

Lemma load_no_result lang pageSize h :
  1 ≤ pageSize →
  ∃ tr r,
    load tags_list lang pageSize h = (tr, h, r) ∧
    r ≠ Fuel ∧ Forall (λ e, is_result e = false) tr.
Proof.
  intros Hps.
  destruct (load_spec tags_list lang pageSize h) as (tr & r & Heq & _ & Hr & _); [done |].
  exists tr, r. split_and!; [done | done |].
  revert Heq. unfold load, bind, callTagsList.
  destruct (tags_list h lang pageSize 0) as [first|].
  - destruct (load_pages_calls tags_list (Z.to_nat (total first)) lang pageSize
                (total first) (0 + pageSize) (ingest empty_catalog (items first)) h)
      as (tr' & r' & n & Heq' & _ & Hres & _); [lia | lia |].
    rewrite Heq'. intros [= <- <-]. by constructor.
  - intros [= <- <-]. by repeat constructor.
Qed.

(** X14: a run emits its result last and only when it completes: a run that
    ends normally has exactly one result event, the last of its trace, with
    the success flag set, the dry-run flag of the parameters, and an
    applied count exactly when it was no dry run; a run stopped by a
    rejected host call has emitted no result. *)
Theorem result_is_final (p : PluginParams) (h : Host) :
  ∃ tr h' r,
    runPlugin tags_list tags_merge p h = (tr, h', r) ∧
    r ≠ Fuel ∧
    (r = Throw → Forall (λ e, is_result e = false) tr) ∧
    (r = Ok tt →
     ∃ pre total_tags planned applied,
       tr = pre ++ [OutputResult true (dryRun_of p) total_tags planned applied] ∧
       Forall (λ e, is_result e = false) pre ∧
       (applied = None ↔ dryRun_of p = true)).
Proof.
  destruct (load_no_result (lang_of p) (pageSize_of p) h)
    as (tr0 & r0 & Hload & Hr0 & Hres0); [apply pageSize_of_bounds |].
  unfold runPlugin, bind, emit. rewrite Hload.
  destruct r0 as [c| |]; [| |done].
  - destruct (dryRun_of p) eqn:Hdry.
    + eexists _, h, (Ok tt). split_and!; [reflexivity | done | done |].
      intros _. eexists _, _, _, None. split_and!; [| |done].
      * rewrite !app_assoc. reflexivity.
      * rewrite !Forall_app. split_and!; by repeat constructor.
    + match goal with
      | |- context [apply_merges tags_merge ?d ?n ?a ?l h] =>
          destruct (apply_merges_spec tags_merge d n a l h)
            as (tr & h' & r & done & -> & Hr & Hres & _)
      end.
      destruct r as [n| |]; [| |done].
      * eexists _, h', (Ok tt). split_and!; [reflexivity | done | done |].
        intros _. eexists _, _, _, (Some n). split_and!; [| |done].
        -- rewrite !app_assoc. reflexivity.
        -- rewrite !Forall_app. split_and!; by repeat constructor.
      * eexists _, h', Throw. split_and!; [reflexivity | done | | done].
        intros _. rewrite !Forall_app. split_and!; by repeat constructor.
  - eexists _, h, Throw. split_and!; [reflexivity | done | | done].
    intros _. by constructor.
Qed.

End RunShape.

(** ** The plan does not depend on the order of the records *)

Lemma agreed_perm (l l' : list Z) : l ≡ₚ l' → agreed l = agreed l'.
Proof.
  induction 1 as [|x l l' Hperm _|x y l|l1 l2 l3 _ IH1 _ IH2]; simpl.
  - done.
  - apply (f_equal (λ b : bool, if b then Some x else Some 0)).
    apply bool_decide_ext. by rewrite Hperm.
  - destruct (decide (x = y)) as [->|Hne]; [done |].
    rewrite !bool_decide_eq_false_2; [done | |].
    + intros [? _]%Forall_cons. congruence.
    + intros [? _]%Forall_cons. congruence.
  - congruence.
Qed.

Lemma idToNs_absent its i :
  i ∉ id <$> tags (ingest empty_catalog its) →
  idToNs (ingest empty_catalog its) !! i = None.
Proof.
  induction its as [|x its IH] using rev_ind; [done |].
  rewrite ingest_snoc, tags_ingest_one, idToNs_ingest_one.
  destruct (retained x) as [t|]; simpl; [|by rewrite app_nil_r].
  rewrite fmap_app. intros [Hold Hnew]%not_elem_of_app.
  rewrite lookup_insert_ne; [by apply IH |].
  intros <-. apply Hnew. simpl. by left.
Qed.

Lemma resolve_loop_ext m m' fuel cur seen :
  (∀ k, JsMap.get k m = JsMap.get k m') →
  resolve_loop fuel m cur seen = resolve_loop fuel m' cur seen.
Proof.
  intros Hget. revert cur seen. induction fuel as [|fuel IH]; intros cur seen; [done |].
  simpl. unfold resolve_step. rewrite Hget.
  destruct (JsMap.get cur m') as [next|]; [|done].
  destruct (bool_decide (next = 0)); [done |].
  destruct (bool_decide (next ∈ seen)); [done |]. apply IH.
Qed.

Lemma plan_sorted c : StronglySorted strictly_before (plan_of c).
Proof.
  apply sorted_NoDup_strict.
  - unfold plan_of, sort_merges. apply StronglySorted_merge_sort; apply _.
  - unfold plan_of, sort_merges. rewrite merge_sort_Permutation.
    eapply sublist_NoDup; [apply build_edges_NoDup | apply omap_sources_sublist].
Qed.

Lemma edges_elem c s t :
  (s, t) ∈ build_edges c ↔ JsMap.get s (build_edges c) = Some t.
Proof.
  split; [apply JsMapFacts.elem_get, build_edges_NoDup | apply JsMapFacts.get_Some_elem].
Qed.

(** Two catalogs with the same tags up to order and the same three maps
    have the same plan. *)
Lemma plan_of_perm c c' :
  NoDup (id <$> tags c) →
  tags c ≡ₚ tags c' →
  translationIndex c = translationIndex c' →
  canonicalCandidates c = canonicalCandidates c' →
  idToNs c = idToNs c' →
  plan_of c = plan_of c'.
Proof.
  intros Hnd Htags Htr Hcc Hns.
  assert (NoDup (id <$> tags c')) as Hnd' by (by rewrite <- Htags).
  assert (∀ T, propose c T = propose c' T) as Hprop.
  { intros T. unfold propose. by rewrite Htr, Hcc. }
  assert (∀ k, JsMap.get k (build_edges c) = JsMap.get k (build_edges c')) as Hget.
  { intros k. unfold build_edges.
    destruct (decide (k ∈ id <$> tags c)) as [(T & -> & HT)%list_elem_of_fmap|Hk].
    - rewrite !get_foldl_own; [done | done | by rewrite <- Htags | done | done..].
    - rewrite !get_foldl_other; [done | |].
      + intros x Hx <-. apply Hk. rewrite Htags. by apply list_elem_of_fmap_2.
      + intros x Hx <-. apply Hk. by apply list_elem_of_fmap_2. }
  assert (build_edges c ≡ₚ build_edges c') as Hperm.
  { apply NoDup_Permutation.
    - eapply NoDup_fmap_1, build_edges_NoDup.
    - eapply NoDup_fmap_1, build_edges_NoDup.
    - intros [s t]. by rewrite !edges_elem, Hget. }
  assert (∀ e, resolve_entry c (build_edges c) e = resolve_entry c' (build_edges c') e)
    as Hentry.
  { intros [s t]. unfold resolve_entry, resolve, ns_of.
    rewrite (resolve_loop_ext _ (build_edges c')) by done.
    by rewrite (Permutation_length Hperm), Hns. }
  apply (StronglySorted_unique_strong strictly_before);
    [| apply plan_sorted | apply plan_sorted |].
  - unfold strictly_before. intros; lia.
  - unfold plan_of, sort_merges. rewrite !merge_sort_Permutation.
    assert (∀ l, omap (resolve_entry c (build_edges c)) l
                 = omap (resolve_entry c' (build_edges c')) l) as ->.
    { induction l as [|e l IH]; [done |]. csimpl. by rewrite Hentry, IH. }
    by apply omap_Permutation.
Qed.

(** X25: when the valid ids the host sends are pairwise different, the
    merge plan depends only on which records were sent, not on the order in
    which they arrive: any rearrangement of the records gives the same
    plan. *)
Theorem plan_order_independent (its its' : list RawTag) :
  NoDup (omap (λ it, valid_id (raw_id it)) its) →
  its ≡ₚ its' →
  merge_plan its = merge_plan its'.
Proof.
  intros Hnd Hperm. unfold merge_plan.
  assert (tags (ingest empty_catalog its) ≡ₚ tags (ingest empty_catalog its')) as Htags.
  { rewrite !tags_ingest. simpl. by rewrite Hperm. }
  assert (NoDup (id <$> tags (ingest empty_catalog its))) as Hids.
  { rewrite tags_ingest. simpl. by rewrite ids_of_retained. }
  apply plan_of_perm; [done | done | | |].
  - apply map_eq. intros k. rewrite !translationIndex_agreed.
    apply agreed_perm. by rewrite Hperm.
  - apply map_eq. intros k. rewrite !canonicalCandidates_listed.
    assert (omap (candidate_of k) its ≡ₚ omap (candidate_of k) its') as Hc
      by (by rewrite Hperm).
    destruct (omap (candidate_of k) its) as [|j l] eqn:H1;
      destruct (omap (candidate_of k) its') as [|j' l'] eqn:H2.
    + done.
    + by apply Permutation_nil_l in Hc.
    + by apply Permutation_nil_r in Hc.
    + f_equal. by rewrite Hc.
  - apply map_eq. intros i.
    destruct (decide (i ∈ id <$> tags (ingest empty_catalog its)))
      as [(T & -> & HT)%list_elem_of_fmap|Hi].
    + rewrite !idToNs_loaded; [done | by rewrite <- Htags | by rewrite <- Htags | done..].
    + rewrite !idToNs_absent; [done | by rewrite <- Htags | done].
Qed.

Lemma plan_order_independent_witness :
  merge_plan three_items = merge_plan (reverse three_items).
Proof.
  apply (plan_order_independent three_items (reverse three_items)).
  - vm_compute.
    repeat (apply NoDup_cons_2;
            [intros H; repeat (apply elem_of_cons in H as [H|H]; [discriminate H |]);
             by apply elem_of_nil in H |]).
    apply NoDup_nil_2.
  - apply Permutation_sym, reverse_Permutation.
Defined.

(** ** Resolving twice *)

Lemma resolve_loop_agree m f1 f2 cur seen a b :
  resolve_loop f1 m cur seen = Some a → resolve_loop f2 m cur seen = Some b → a = b.
Proof.
  revert f2 cur seen. induction f1 as [|f1 IH]; intros [|f2] cur seen; simpl; try done.
  destruct (resolve_step m cur seen); [congruence | apply IH].
Qed.

Lemma chain_app m cur p1 p2 :
  chain m cur (p1 ++ p2) ↔ chain m cur p1 ∧ chain m (walk_end cur p1) p2.
Proof.
  revert cur. induction p1 as [|x p1 IH]; intros cur; simpl; [naive_solver |].
  rewrite IH. unfold walk_end. rewrite last_cons.
  destruct (last p1); simpl; naive_solver.
Qed.

Lemma walk_end_app cur p x : walk_end cur (p ++ [x]) = x.
Proof. unfold walk_end. by rewrite last_snoc. Qed.

Lemma walk_end_cons cur x p : walk_end cur (x :: p) = walk_end x p.
Proof. unfold walk_end. rewrite last_cons. by destruct (last p). Qed.

(** What the loop has seen is the walk it has made. *)
Lemma walk_invariant m t s :
  rtc (loop_next m) (t, ∅) s →
  ∃ p, s.2 = list_to_set p ∧ NoDup p ∧ chain m t p ∧ s.1 = walk_end t p.
Proof.
  intros Hrtc. apply rtc_nsteps in Hrtc as [n Hn]. revert s Hn.
  induction n as [|n IH]; intros s Hn.
  - inversion Hn; subst. exists []. simpl.
    split_and!; [done | constructor | done | done].
  - apply nsteps_inv_r in Hn as (s1 & Hn & Hstep).
    destruct (IH s1 Hn) as (p & Hseen & Hnd & Hchain & Hcur).
    unfold loop_next in Hstep.
    apply resolve_step_Continue in Hstep as (Hget & Hnz & Hnew & Hseen').
    exists (p ++ [s.1]). split_and!.
    + rewrite Hseen', Hseen, list_to_set_app_L. simpl. set_solver.
    + apply NoDup_app. split_and!; [done | | apply NoDup_singleton].
      intros x Hx ->%list_elem_of_singleton. apply Hnew. rewrite Hseen.
      by apply elem_of_list_to_set.
    + apply chain_app. split; [done |]. simpl. by rewrite <- Hcur.
    + by rewrite walk_end_app.
Qed.

(** Along a chain of unseen, distinct ids the loop just walks. *)
Lemma resolve_loop_walk m p fuel cur seen :
  chain m cur p → NoDup p → (∀ x, x ∈ p → x ∉ seen) →
  resolve_loop (length p + fuel) m cur seen
  = resolve_loop fuel m (walk_end cur p) (list_to_set p ∪ seen).
Proof.
  revert cur seen. induction p as [|x p IH]; intros cur seen Hchain Hnd Hfresh.
  - simpl. unfold walk_end. simpl. by rewrite (left_id_L ∅ (∪)).
  - destruct Hchain as (Hget & Hnz & Hchain). apply NoDup_cons in Hnd as [Hx Hnd].
    cbn [length Nat.add resolve_loop]. unfold resolve_step. rewrite Hget.
    rewrite bool_decide_eq_false_2 by done.
    rewrite bool_decide_eq_false_2 by (apply Hfresh; by left).
    rewrite IH; [| done | done |].
    + rewrite walk_end_cons. f_equal. rewrite list_to_set_cons. set_solver.
    + intros y Hy. apply not_elem_of_union. split.
      * apply not_elem_of_singleton. by intros ->.
      * apply Hfresh. by right.
Qed.

(** The id at which a walk stops is sent to itself. *)
Lemma resolve_fixed m t r seen :
  rtc (loop_next m) (t, ∅) (r, seen) →
  resolve_step m r seen = Return r →
  resolve m r = r.
Proof.
  intros Hrtc Hret.
  destruct (resolve_loop_enough m (S (length m)) r ∅) as (r' & seen' & _ & _ & Hloop).
  { apply resolve_fuel_bound. lia. }
  unfold resolve. rewrite Hloop. simpl.
  destruct (walk_invariant m t _ Hrtc) as (p & Hseen & Hnd & Hchain & Hcur).
  simpl in Hseen, Hcur.
  unfold resolve_step in Hret.
  destruct (JsMap.get r m) as [n|] eqn:Hget.
  - destruct (bool_decide_reflect (n = 0)) as [->|Hnz].
    + apply (resolve_loop_agree m _ 1 r ∅ _ _ Hloop).
      simpl. unfold resolve_step. by rewrite Hget.
    + destruct (bool_decide_reflect (n ∈ seen)) as [Hin|]; [|done].
      rewrite Hseen in Hin. apply elem_of_list_to_set in Hin.
      apply list_elem_of_split in Hin as (p1 & p2 & ->).
      apply chain_app in Hchain as [_ Hchain].
      destruct Hchain as (_ & _ & Hchain).
      apply NoDup_app in Hnd as (_ & _ & Hnd). apply NoDup_cons in Hnd as [Hn Hnd].
      assert (r = walk_end n p2) as Hr.
      { rewrite Hcur. unfold walk_end. rewrite last_app. simpl.
        rewrite last_cons. by destruct (last p2). }
      apply (resolve_loop_agree m _ (1 + (length p2 + 1)) r ∅ _ _ Hloop).
      cbn [Nat.add resolve_loop]. unfold resolve_step at 1. rewrite Hget.
      rewrite bool_decide_eq_false_2 by done.
      rewrite bool_decide_eq_false_2 by apply not_elem_of_empty.
      rewrite resolve_loop_walk; [| done | done |].
      * simpl. unfold resolve_step. rewrite <- Hr, Hget.
        rewrite bool_decide_eq_false_2 by done.
        rewrite bool_decide_eq_true_2; [done | set_solver].
      * intros x Hx. rewrite (right_id_L ∅ (∪)). apply not_elem_of_singleton.
        by intros ->.
  - apply (resolve_loop_agree m _ 1 r ∅ _ _ Hloop).
    simpl. unfold resolve_step. by rewrite Hget.
Qed.

(** X26: [resolve] returns ids that it sends to themselves: resolving the
    result of a resolution again gives the same id, so every final target
    of the plan is final. *)
Theorem resolve_idempotent (m : JsMap.t) (i : Z) :
  resolve m (resolve m i) = resolve m i.
Proof.
  destruct (resolve_loop_enough m (S (length m)) i ∅) as (r & seen & Hrtc & Hret & Hloop).
  { apply resolve_fuel_bound. lia. }
  unfold resolve at 2 3. rewrite Hloop. simpl.
  by apply (resolve_fixed m i r seen).
Qed.

(** ** The NFO sidecar plugin *)

Module NfoFacts.
Import Nfo.

Lemma chars_length s : length (chars s) = Strings.String.length s.
Proof. unfold chars. induction s as [|c s IH]; simpl; [done | by rewrite IH]. Qed.

Lemma chars_substring_0 n s :
  chars (Strings.String.substring 0 n s) = take n (chars s).
Proof.
  unfold chars. revert s. induction n as [|n IH]; intros [|c s]; simpl; try done.
  by rewrite IH.
Qed.

Lemma lastIndexOf_go_absent c s i found :
  c ∉ chars s → lastIndexOf_go c s i found = found.
Proof.
  unfold chars. revert i found. induction s as [|x s IH]; intros i found Hc; simpl; [done |].
  simpl in Hc. apply not_elem_of_cons in Hc as [Hne Hc].
  rewrite bool_decide_eq_false_2 by done. by apply IH.
Qed.

Lemma lastIndexOf_go_last c s1 s2 i found :
  c ∉ chars s2 →
  lastIndexOf_go c (s1 +:+ String c s2) i found = i + Z.of_nat (length (chars s1)).
Proof.
  intros Hc. unfold chars. revert i found.
  induction s1 as [|x s1 IH]; intros i found; simpl.
  - rewrite bool_decide_eq_true_2 by done.
    rewrite lastIndexOf_go_absent by done. lia.
  - rewrite IH. lia.
Qed.

(** X15: [stripExtension] removes the last dot and what follows it.  Given a
    non-empty stem and an extension without a dot it returns the stem; a
    name whose only dot is its first character, or that has no dot, is
    returned unchanged. *)
Theorem stripExtension_spec (stem ext name : string) (c : ascii) :
  stem ≠ "" → "."%char ∉ chars ext → "."%char ∉ chars name →
  stripExtension (stem +:+ String "." ext) = stem ∧
  stripExtension name = name ∧
  stripExtension (String c name) = String c name.
Proof.
  intros Hstem Hext Hname. unfold stripExtension, lastIndexOf. split_and!.
  - rewrite lastIndexOf_go_last by done.
    rewrite bool_decide_eq_false_2.
    + apply chars_inj. unfold slice_to. rewrite chars_substring_0, chars_app.
      replace (Z.to_nat (0 + Z.of_nat (length (chars stem)))) with (length (chars stem))
        by lia.
      by rewrite take_app_length.
    + destruct stem; [done |]. unfold chars. simpl. lia.
  - by rewrite lastIndexOf_go_absent.
  - simpl. rewrite lastIndexOf_go_absent by done.
    by rewrite bool_decide_eq_true_2 by (destruct (bool_decide _); lia).
Qed.

Lemma stripExtension_spec_witness :
  stripExtension ("show.S01E02" +:+ String "." "mkv") = "show.S01E02" ∧
  stripExtension "README" = "README" ∧
  stripExtension (String "." "README") = String "." "README".
Proof.
  apply (stripExtension_spec "show.S01E02" "mkv" "README" "."%char).
  - discriminate.
  - vm_compute. intros H. repeat (apply elem_of_cons in H as [H|H]; [discriminate H |]).
    by apply elem_of_nil in H.
  - vm_compute. intros H. repeat (apply elem_of_cons in H as [H|H]; [discriminate H |]).
    by apply elem_of_nil in H.
Defined.


Lemma nonempty_true s : nonempty s = true ↔ s ≠ "".
Proof. by destruct s. Qed.

Lemma unique_go_elem seen l x :
  x ∈ unique_go seen l ↔ x ≠ "" ∧ (x ∉ seen) ∧ x ∈ trim <$> l.
Proof.
  revert seen. induction l as [|y l IH]; intros seen; csimpl.
  - rewrite elem_of_nil. naive_solver.
  - destruct (nonempty (trim y)) eqn:Hne; simpl.
    + destruct (bool_decide_reflect (trim y ∈ seen)) as [Hin|Hnin].
      * rewrite IH, elem_of_cons. naive_solver.
      * rewrite !elem_of_cons, IH. apply nonempty_true in Hne.
        rewrite elem_of_union, elem_of_singleton.
        destruct (decide (x = trim y)) as [->|]; naive_solver.
    + rewrite IH, elem_of_cons.
      assert (trim y = "") as -> by (by destruct (trim y)). naive_solver.
Qed.

Lemma unique_go_NoDup seen l : NoDup (unique_go seen l).
Proof.
  revert seen. induction l as [|y l IH]; intros seen; simpl; [constructor |].
  destruct (negb (nonempty (trim y)) || bool_decide (trim y ∈ seen)); [apply IH |].
  constructor; [|apply IH].
  rewrite unique_go_elem. set_solver.
Qed.


Lemma unique_go_app seen l1 l2 :
  unique_go seen (l1 ++ l2) =
  unique_go seen l1 ++ unique_go (list_to_set (unique_go seen l1) ∪ seen) l2.
Proof.
  revert seen. induction l1 as [|y l1 IH]; intros seen; simpl.
  - by rewrite (left_id_L ∅ (∪)).
  - destruct (negb (nonempty (trim y)) || bool_decide (trim y ∈ seen)); [apply IH |].
    simpl. rewrite IH. f_equal. f_equal. f_equal. set_solver.
Qed.

Lemma unique_go_fixed seen l :
  NoDup l → (∀ x, x ∈ l → trim x = x ∧ x ≠ "" ∧ x ∉ seen) → unique_go seen l = l.
Proof.
  revert seen. induction l as [|y l IH]; intros seen Hnd Hl; simpl; [done |].
  apply NoDup_cons in Hnd as [Hnew Hnd].
  destruct (Hl y) as (Hy & Hne & Hseen); [by left |].
  rewrite Hy. apply nonempty_true in Hne. rewrite Hne.
  rewrite bool_decide_eq_false_2 by done. simpl. f_equal.
  apply IH; [done |]. intros x Hx.
  destruct (Hl x) as (? & ? & ?); [by right |].
  split_and!; [done | done |]. set_solver.
Qed.

Lemma unique_go_seen seen l :
  (∀ x, x ∈ l → trim x = "" ∨ trim x ∈ seen) → unique_go seen l = [].
Proof.
  intros Hl. destruct (unique_go seen l) as [|x u] eqn:Hu; [done |].
  assert (x ∈ unique_go seen l) as Hx by (rewrite Hu; by left).
  apply unique_go_elem in Hx as (Hne & Hnin & (y & -> & Hy)%list_elem_of_fmap).
  destruct (Hl y Hy); done.
Qed.


Lemma unique_fixed l : unique (unique l) = unique l.
Proof.
  unfold unique. apply unique_go_fixed; [apply unique_go_NoDup |].
  intros x (Hne & _ & (y & -> & _)%list_elem_of_fmap)%unique_go_elem.
  split_and!; [apply trim_idemp | done | set_solver].
Qed.

(** X17: [unique] is idempotent, a list appended to itself adds nothing, and
    cleaning the first part of a list beforehand does not change the
    result. *)
Theorem unique_idemp (l1 l2 : list string) :
  unique (unique l1) = unique l1 ∧
  unique (l1 ++ l1) = unique l1 ∧
  unique (unique l1 ++ l2) = unique (l1 ++ l2).
Proof.
  split_and!.
  - apply unique_fixed.
  - unfold unique. rewrite unique_go_app.
    rewrite (unique_go_seen (list_to_set (unique_go ∅ l1) ∪ ∅) l1); [by rewrite app_nil_r |].
    intros x Hx. destruct (decide (trim x = "")) as [|Hne]; [by left | right].
    apply elem_of_union. left. apply elem_of_list_to_set, unique_go_elem.
    split_and!; [done | set_solver | by apply list_elem_of_fmap_2].
  - unfold unique at 1 3. rewrite !unique_go_app.
    fold (unique (unique l1)). rewrite unique_fixed. done.
Qed.


Lemma prefix_first (s : string) (c : ascii) (r : string) :
  Strings.String.prefix s (String c r) = true →
  match s with
  | String a _ => a = c
  | EmptyString => True
  end.
Proof.
  destruct s as [|a s]; [done |]. simpl.
  by destruct (ascii_dec a c).
Qed.

(** X18: no name is both a video file and an image file. *)
Theorem video_not_image (name : string) :
  isVideoFile name && isImageFile name = false.
Proof.
  destruct (isVideoFile name) eqn:Hv; [|done].
  destruct (isImageFile name) eqn:Hi; [|done]. exfalso.
  unfold isVideoFile, isImageFile, has_extension, ends_with in Hv, Hi.
  apply existsb_exists in Hv as (e1 & He1 & Hp1).
  apply existsb_exists in Hi as (e2 & He2 & Hp2).
  revert Hp1 Hp2. generalize (String.rev (toLowerCase name)).
  intros [|c r] Hp1 Hp2.
  - simpl in He1. by repeat destruct He1 as [<-|He1].
  - apply prefix_first in Hp1. apply prefix_first in Hp2.
    simpl in He1, He2.
    repeat destruct He1 as [<-|He1]; try done;
      repeat destruct He2 as [<-|He2]; try done;
      cbv in Hp1, Hp2; congruence.
Qed.






Lemma pick_fold_from (cur : SourceTagCandidate) (l : list SourceTagCandidate) :
  ∃ b, foldl pickBetterSource (Some cur) (Some <$> l) = Some b ∧
       ((b = cur ∧ Forall (λ x, score x ≤ score cur) l) ∨
        ∃ l1 l2, l = l1 ++ b :: l2 ∧ score cur < score b ∧
                 Forall (λ x, score x < score b) l1 ∧
                 Forall (λ x, score x ≤ score b) l2).
Proof.
  revert cur. induction l as [|x l IH]; intros cur; csimpl.
  - exists cur. split; [done |]. left. by split.
  - destruct (bool_decide_reflect (score cur < score x)) as [Hlt|Hge].
    + destruct (IH x) as (b & -> & [[-> Hall]|(l1 & l2 & -> & Hxb & H1 & H2)]).
      * exists x. split; [done |]. right. exists [], l. split_and!; [done | done | constructor | done].
      * exists b. split; [done |]. right. exists (x :: l1), l2.
        split_and!; [done | lia | by constructor | done].
    + destruct (IH cur) as (b & -> & [[-> Hall]|(l1 & l2 & -> & Hcb & H1 & H2)]).
      * exists cur. split; [done |]. left. split; [done |]. constructor; [lia | done].
      * exists b. split; [done |]. right. exists (x :: l1), l2.
        split_and!; [done | done | constructor; [lia | done] | done].
Qed.

(** X20: [pickBetterSource] ignores a missing candidate and replaces the
    current one only by a strictly higher score, so feeding it a sequence
    of candidates one after the other leaves the earliest candidate of
    maximal score, and nothing exactly when the sequence is empty. *)
Theorem pickBetterSource_fold (l : list SourceTagCandidate) :
  match foldl pickBetterSource None (Some <$> l) with
  | None => l = []
  | Some b =>
      ∃ l1 l2, l = l1 ++ b :: l2 ∧
               Forall (λ x, score x < score b) l1 ∧
               Forall (λ x, score x ≤ score b) l2
  end.
Proof.
  destruct l as [|x l]; [done |]. csimpl.
  destruct (pick_fold_from x l) as (b & -> & [[-> Hall]|(l1 & l2 & -> & Hxb & H1 & H2)]).
  - exists [], l. split_and!; [done | constructor | done].
  - exists (x :: l1), l2. split_and!; [done | by constructor | done].
Qed.


Lemma split_comma_nonnil s : split_comma s ≠ [].
Proof.
  destruct s as [|c s]; simpl; [done |].
  destruct (bool_decide (c = ","%char)); [done |].
  by destruct (split_comma s).
Qed.

Lemma split_comma_free x : comma_free x → split_comma x = [x].
Proof.
  unfold comma_free, chars. induction x as [|c x IH]; simpl; [done |].
  intros [Hc Hx]%not_elem_of_cons.
  rewrite bool_decide_eq_false_2 by done. by rewrite IH.
Qed.

Lemma split_comma_app x s :
  comma_free x → split_comma (x +:+ String "," s) = x :: split_comma s.
Proof.
  unfold comma_free, chars. induction x as [|c x IH]; simpl; [done |].
  intros [Hc Hx]%not_elem_of_cons.
  rewrite bool_decide_eq_false_2 by done. by rewrite IH.
Qed.

Lemma split_comma_join x l :
  Forall comma_free (x :: l) →
  split_comma (join ", " (x :: l)) = x :: (String " " <$> l).
Proof.
  revert x. induction l as [|y l IH]; intros x [Hx Hl]%Forall_cons.
  - by apply split_comma_free.
  - change (join ", " (x :: y :: l)) with (x +:+ String "," (String " " (join ", " (y :: l)))).
    rewrite split_comma_app by done.
    cbn [split_comma]. rewrite bool_decide_eq_false_2 by done.
    rewrite IH by done. done.
Qed.

Lemma split_comma_all_free s : Forall comma_free (split_comma s).
Proof.
  unfold comma_free, chars. induction s as [|c s IH]; simpl.
  - repeat constructor. apply not_elem_of_nil.
  - destruct (bool_decide_reflect (c = ","%char)) as [->|Hc].
    + constructor; [apply not_elem_of_nil | done].
    + destruct (split_comma s) as [|x r]; simpl.
      * repeat constructor. simpl. apply not_elem_of_cons. split; [done | apply not_elem_of_nil].
      * apply Forall_cons in IH as [Hx Hr]. constructor; [|done].
        simpl. apply not_elem_of_cons. by split.
Qed.

Lemma drop_ws_elem c l : c ∈ drop_ws l → c ∈ l.
Proof.
  destruct (drop_ws_split l) as (p & Hp & _). intros Hc.
  rewrite Hp. apply elem_of_app. by right.
Qed.

Lemma trim_comma_free x : comma_free x → comma_free (trim x).
Proof.
  unfold comma_free. intros Hx Hc. apply Hx. rewrite chars_trim in Hc.
  apply elem_of_reverse, drop_ws_elem, elem_of_reverse, drop_ws_elem in Hc. done.
Qed.

Lemma trim_space y : trim (String " " y) = trim y.
Proof. apply chars_inj. by rewrite !chars_trim. Qed.

(** A well-formed tag: trimmed, not empty, without a comma. *)
Lemma split_tags_elem s x :
  x ∈ split_tags s → trim x = x ∧ x ≠ "" ∧ comma_free x.
Proof.
  unfold split_tags. intros [Hne (y & -> & Hy)%list_elem_of_fmap]%list_elem_of_filter.
  split_and!; [apply trim_idemp | by apply nonempty_true |].
  apply trim_comma_free.
  pose proof (split_comma_all_free s) as Hall. rewrite Forall_forall in Hall. by apply Hall.
Qed.

Lemma split_tags_join l :
  (∀ x, x ∈ l → comma_free x) →
  split_tags (join ", " l) = filter (λ x, nonempty x = true) (trim <$> l).
Proof.
  intros Hl. destruct l as [|x l]; [done |].
  unfold split_tags. rewrite split_comma_join by (by apply Forall_forall).
  f_equal. rewrite !fmap_cons. f_equal.
  rewrite <- list_fmap_compose. apply list_fmap_ext. intros _ y _. apply trim_space.
Qed.

Lemma filter_all {A} (P : A → Prop) `{∀ x, Decision (P x)} (l : list A) :
  (∀ x, x ∈ l → P x) → filter P l = l.
Proof.
  induction l as [|x l IH]; intros Hl; [done |].
  rewrite filter_cons_True by (apply Hl; by left).
  f_equal. apply IH. intros y Hy. apply Hl. by right.
Qed.

Lemma split_tags_join_tags l :
  (∀ x, x ∈ l → trim x = x ∧ x ≠ "" ∧ comma_free x) →
  split_tags (join ", " l) = l.
Proof.
  intros Hl. rewrite split_tags_join by (intros x Hx; by apply Hl).
  assert (trim <$> l = l) as ->.
  { rewrite <- (list_fmap_id l) at 2. apply list_fmap_ext.
    intros _ x Hx%list_elem_of_lookup_2. by apply Hl. }
  apply filter_all. intros x Hx. apply nonempty_true. by apply Hl.
Qed.

Lemma unique_elem_tags l x :
  (∀ y, y ∈ l → comma_free y) → x ∈ unique l → trim x = x ∧ x ≠ "" ∧ comma_free x.
Proof.
  intros Hl (Hne & _ & (y & -> & Hy)%list_elem_of_fmap)%unique_go_elem.
  split_and!; [apply trim_idemp | done | by apply trim_comma_free, Hl].
Qed.

Lemma unique_absorb l1 l2 :
  (∀ x, x ∈ l2 → trim x = "" ∨ trim x ∈ trim <$> l1) →
  unique (l1 ++ l2) = unique l1.
Proof.
  intros Hl2. unfold unique. rewrite unique_go_app.
  rewrite (unique_go_seen (list_to_set (unique_go ∅ l1) ∪ ∅) l2); [by rewrite app_nil_r |].
  intros x Hx. destruct (decide (trim x = "")) as [|Hne]; [by left | right].
  apply elem_of_union. left. apply elem_of_list_to_set, unique_go_elem.
  split_and!; [done | set_solver |]. by destruct (Hl2 x Hx).
Qed.

Lemma mergeTags_roundtrip_aux existing additions :
  split_tags (mergeTags existing additions)
  = unique (split_tags existing ++ split_tags additions).
Proof.
  unfold mergeTags. apply split_tags_join_tags. intros x Hx.
  apply (unique_elem_tags (split_tags existing ++ split_tags additions)); [|done].
  intros y [Hy|Hy]%elem_of_app; by apply split_tags_elem in Hy as (_ & _ & ?).
Qed.

(** X21: the tags read back from the string [mergeTags] builds are exactly
    the trimmed, non-empty tags of [existing] followed by those of
    [additions], each once, in order of first occurrence. *)
Theorem mergeTags_roundtrip (existing additions : string) :
  split_tags (mergeTags existing additions)
  = unique (split_tags existing ++ split_tags additions).
Proof.
  unfold mergeTags. apply split_tags_join_tags. intros x Hx.
  apply (unique_elem_tags (split_tags existing ++ split_tags additions)); [|done].
  intros y [Hy|Hy]%elem_of_app; by apply split_tags_elem in Hy as (_ & _ & ?).
Qed.


(** X22: merging the same additions again, or merging the existing tags
    back in, changes nothing; and [mergeTagList] with additions that hold
    no comma is [mergeTags] with the additions joined. *)
Theorem mergeTags_idemp (existing additions : string) (adds : list string) :
  (∀ x, x ∈ adds → comma_free x) →
  mergeTags (mergeTags existing additions) additions = mergeTags existing additions ∧
  mergeTags (mergeTags existing additions) existing = mergeTags existing additions ∧
  mergeTagList existing adds = mergeTags existing (join ", " adds).
Proof.
  intros Hadds.
  assert (∀ l2, (∀ x, x ∈ l2 → x ∈ split_tags existing ++ split_tags additions) →
    unique (unique (split_tags existing ++ split_tags additions) ++ l2)
    = unique (split_tags existing ++ split_tags additions)) as Habsorb.
  { intros l2 Hl2.
    rewrite unique_absorb; [apply unique_fixed |].
    intros x Hx. right. apply list_elem_of_fmap_2.
    apply unique_go_elem. specialize (Hl2 x Hx).
    assert (trim x = x ∧ x ≠ "") as [Htrim ?].
    { apply elem_of_app in Hl2 as [H|H]; by apply split_tags_elem in H as (? & ? & _). }
    split_and!; [done | set_solver |]. rewrite list_elem_of_fmap.
    by exists x. }
  split_and!.
  - unfold mergeTags at 1. rewrite mergeTags_roundtrip_aux. unfold mergeTags. f_equal.
    apply Habsorb. intros x Hx. apply elem_of_app. by right.
  - unfold mergeTags at 1. rewrite mergeTags_roundtrip_aux. unfold mergeTags. f_equal.
    apply Habsorb. intros x Hx. apply elem_of_app. by left.
  - unfold mergeTagList, mergeTags. by rewrite split_tags_join.
Qed.

Lemma mergeTags_idemp_witness :
  mergeTags (mergeTags "a, b" "b ,c") "b ,c" = mergeTags "a, b" "b ,c" ∧
  mergeTags (mergeTags "a, b" "b ,c") "a, b" = mergeTags "a, b" "b ,c" ∧
  mergeTagList "a, b" [" c"; "a"] = mergeTags "a, b" (join ", " [" c"; "a"]).
Proof.
  apply (mergeTags_idemp "a, b" "b ,c" [" c"; "a"]).
  intros x Hx. unfold comma_free.
  repeat (apply elem_of_cons in Hx as [->|Hx];
          [vm_compute; intros H;
           repeat (apply elem_of_cons in H as [H|H]; [discriminate H |]);
           by apply elem_of_nil in H |]).
  by apply elem_of_nil in Hx.
Defined.


Example mergeTags_example : mergeTags "a, b" "b ,c" = "a, b, c".
Proof. by vm_compute. Qed.

(** X23: the tags read back from the result of [stripGenericNfoSourceTag]
    are the tags of its argument other than "source:nfo" in any ASCII case,
    each once. *)
Theorem stripGenericNfoSourceTag_spec (tags : string) :
  NoDup (split_tags (stripGenericNfoSourceTag tags)) ∧
  ∀ x, x ∈ split_tags (stripGenericNfoSourceTag tags) ↔
       x ∈ split_tags tags ∧ toLowerCase x ≠ "source:nfo".
Proof.
  unfold stripGenericNfoSourceTag.
  set (kept := filter (λ x, nonempty x = true ∧ toLowerCase x ≠ "source:nfo")
                 (trim <$> split_comma tags)).
  assert (∀ y, y ∈ kept ↔ y ∈ split_tags tags ∧ toLowerCase y ≠ "source:nfo") as Hkept.
  { intros y. unfold kept, split_tags. rewrite !list_elem_of_filter. naive_solver. }
  rewrite split_tags_join_tags.
  - split; [apply unique_go_NoDup |].
    intros x. unfold unique. rewrite unique_go_elem, list_elem_of_fmap. split.
    + intros (Hne & _ & y & -> & Hy). apply Hkept in Hy as [Hy Hlow].
      apply split_tags_elem in Hy as Hwf. destruct Hwf as (-> & _). done.
    + intros Hx. pose proof Hx as [(Htrim & Hne & _)%split_tags_elem _].
      split_and!; [done | set_solver |]. exists x. split; [done | by apply Hkept].
  - intros x Hx. apply (unique_elem_tags kept); [|done].
    intros y [Hy _]%Hkept. by apply split_tags_elem in Hy as (_ & _ & ?).
Qed.

Lemma toLowerCase_empty x : toLowerCase x = "" ↔ x = "".
Proof. by destruct x. Qed.

(** X24: a missing parameter reads as the default, and so does a string of
    white space only; any other string reads as false exactly when, trimmed
    and lowercased, it is one of "0", "false", "no", "n", "off", and as true
    otherwise, whatever the default. *)
Theorem readBoolParam_string (s : string) (d : bool) :
  readBoolParam VUndefined d = d ∧
  readBoolParam VNull d = d ∧
  readBoolParam (VString s) d =
    if bool_decide (trim s = "") then d
    else negb (bool_decide (toLowerCase (trim s) ∈ ["0"; "false"; "no"; "n"; "off"])).
Proof.
  split_and!; [done | done |]. unfold readBoolParam.
  destruct (bool_decide_reflect (toLowerCase (trim s) = "")) as [Hb|Hb].
  - apply (proj1 (toLowerCase_empty _)) in Hb.
    by rewrite (bool_decide_eq_true_2 (trim s = "")) by done.
  - rewrite (bool_decide_eq_false_2 (trim s = "")) by (by rewrite <- toLowerCase_empty).
    destruct (bool_decide (toLowerCase (trim s) ∈ ["0"; "false"; "no"; "n"; "off"]));
      [done |].
    destruct (bool_decide (toLowerCase (trim s) ∈ ["1"; "true"; "yes"; "y"; "on"]));
      [done |].
    simpl. destruct s; [|done]. exfalso. by apply Hb.
Qed.

End NfoFacts.
